(** * Character-level RNN notebook: alphabet, batching and sampling

    A shallow embedding of the Python code of
    [Char level rnn/Character_Level_RNN_Exercise-cn.ipynb]:
    the character dictionaries ([int2char], [char2int]), [one_hot_encode],
    [get_batches], [predict] and [sample].

    Conventions.
    - A Python character (a [str] of length one) is an [ascii]; a [str] is a
      [string], iterated through [list_ascii_of_string].
    - A [dict] is a [gmap]; a lookup [d[k]] of an absent key raises
      [KeyError].
    - Python exceptions are values of [exn]; a computation that may raise
      returns a [result].  [predict] and [sample] also change state (the
      random generator, the number of forward passes): they live in the
      state-and-exception monad [M].
    - Probabilities (float32 in the notebook) are rationals [Q]; rounding is
      not modelled, and NumPy's test that probabilities sum to one within a
      tolerance is the test that they sum to one.
    - The network, its softmax and the random generator are parameters
      ([Backend], [CharRNN]); [torch.topk] and [np.random.choice] are
      modelled as these libraries behave.
    - The notebook is an exercise: the body of [get_batches] is left blank.
      Its blanks are filled from the specification and marked so.

    Outline: exceptions; the alphabet; [one_hot_encode]; [get_batches];
    [predict] and [sample]; an example network; then the properties, in the
    same order. *)

From Stdlib Require Import QArith Lqa Ascii.
From Stdlib Require String.
From stdpp Require Import gmap strings list sorting.

Local Open Scope nat_scope.

(** ** Exceptions and results *)

(** The exception classes the notebook's code and its library calls can raise.
    The last three are names of the specification, which the notebook does
    not define. *)
Inductive exn : Set :=
  | KeyError
  | TypeError
  | ValueError
  | IndexError
  | RuntimeError
  | UnboundLocalError
  | ZeroDivisionError
  | InsufficientDataError
  | InvalidTopKError
  | EmptyPrimeError.

Inductive result (A : Type) : Type :=
  | Ok (a : A)
  | Raise (e : exn).
Arguments Ok {A} a.
Arguments Raise {A} e.

Global Instance exn_eq_dec : EqDecision exn.
Proof. solve_decision. Defined.

Definition is_ok {A} (r : result A) : bool :=
  match r with Ok _ => true | Raise _ => false end.

(** Comparison of probabilities is decidable. *)
Global Instance Qlt_decision : RelDecision Qlt.
Proof.
  intros x y. destruct (Qlt_le_dec x y) as [Hlt | Hle].
  - left. exact Hlt.
  - right. intros Hlt. exact (Qle_not_lt _ _ Hle Hlt).
Defined.

(** ** The alphabet *)

Module Alphabet.

(** [enumerate(chars)]: the pairs [(0, c0), (1, c1), ...]. *)
Definition enumerate {A} (l : list A) : list (nat * A) :=
  zip (seq 0 (length l)) l.

(** [int2char = dict(enumerate(chars))]. *)
Definition int2char (chars : list ascii) : gmap nat ascii :=
  foldl (fun d '(ii, ch) => <[ii := ch]> d) ∅ (enumerate chars).

(** [char2int = {ch: ii for ii, ch in int2char.items()}].  A [dict] keeps
    insertion order, so [int2char.items()] yields the pairs of
    [enumerate(chars)] in order; a later pair overwrites an earlier one
    with the same character. *)
Definition char2int (chars : list ascii) : gmap ascii nat :=
  foldl (fun d '(ii, ch) => <[ch := ii]> d) ∅ (enumerate chars).

(** The two dictionaries once the pairs before index [n] have been entered
    into [d]: the state of the construction part of the way through the
    list. *)
Definition fill_int2char (d : gmap nat ascii) (n : nat)
    (l : list ascii) : gmap nat ascii :=
  foldl (fun d '(ii, ch) => <[ii := ch]> d) d (zip (seq n (length l)) l).

Definition fill_char2int (d : gmap ascii nat) (n : nat)
    (l : list ascii) : gmap ascii nat :=
  foldl (fun d '(ii, ch) => <[ch := ii]> d) d (zip (seq n (length l)) l).

(** [chars = tuple(set(text))]: Python fixes neither the order of a set nor
    of the tuple built from it, only that it has the characters of [text],
    each once. *)
Definition tuple_of_set (text : string) (chars : list ascii) : Prop :=
  NoDup chars ∧ ∀ c, c ∈ chars ↔ c ∈ String.list_ascii_of_string text.

(** [d[k]] on a dictionary. *)
Definition getitem `{Countable K} {V} (d : gmap K V) (k : K) : result V :=
  match d !! k with
  | Some v => Ok v
  | None => Raise KeyError
  end.

(** [encoded = np.array([char2int[ch] for ch in text])]. *)
Fixpoint encode_list (d : gmap ascii nat) (l : list ascii)
  : result (list nat) :=
  match l with
  | [] => Ok []
  | ch :: l' =>
      match getitem d ch with
      | Raise e => Raise e
      | Ok i =>
          match encode_list d l' with
          | Raise e => Raise e
          | Ok r => Ok (i :: r)
          end
      end
  end.

Definition encoded (chars : list ascii) (text : string) : result (list nat) :=
  encode_list (char2int chars) (String.list_ascii_of_string text).

End Alphabet.

(** ** [one_hot_encode] *)

Module OneHot.

(** One row of the [rows x n_labels] array of zeros with
    [one_hot[r, v] = 1.]; NumPy raises [IndexError] when [v] is not below
    [n_labels]. *)
Definition one_hot_row (n_labels v : nat) : result (list Q) :=
  if decide (v < n_labels)
  then Ok (<[v := 1%Q]> (replicate n_labels 0%Q))
  else Raise IndexError.

Fixpoint one_hot_rows (n_labels : nat) (l : list nat)
  : result (list (list Q)) :=
  match l with
  | [] => Ok []
  | v :: l' =>
      match one_hot_row n_labels v with
      | Raise e => Raise e
      | Ok r =>
          match one_hot_rows n_labels l' with
          | Raise e => Raise e
          | Ok rs => Ok (r :: rs)
          end
      end
  end.

(** [one_hot_encode(arr, n_labels)] for a two-dimensional [arr]: the result
    has the shape of [arr] followed by [n_labels]. *)
Fixpoint one_hot_encode (arr : list (list nat)) (n_labels : nat)
  : result (list (list (list Q))) :=
  match arr with
  | [] => Ok []
  | row :: arr' =>
      match one_hot_rows n_labels row with
      | Raise e => Raise e
      | Ok r =>
          match one_hot_encode arr' n_labels with
          | Raise e => Raise e
          | Ok rs => Ok (r :: rs)
          end
      end
  end.




End OneHot.

(** ** [get_batches] *)

Module Batches.

(** A two-dimensional array of encoded characters, by rows. *)
Abbreviation matrix := (list (list nat)).

(** [arr[:, a:b]] on every row. *)
Definition columns (a b : nat) (m : matrix) : matrix :=
  (fun row => take (b - a) (drop a row)) <$> m.

(** [arr.reshape((rows, -1))] of a flat array of [rows * width] elements,
    in row-major order: row [i] holds the elements
    [i * width, ..., (i+1) * width - 1]. *)
Definition reshape (rows width : nat) (arr : list nat) : matrix :=
  (fun i => take width (drop (i * width) arr)) <$> seq 0 rows.

(** [range(0, stop, step)] for a positive [step]. *)
Definition range_step (stop step : nat) : list nat :=
  (fun k => k * step) <$> seq 0 ((stop + step - 1) / step).

(** Modelled from the spec: the assignment [x = ] in the loop of
    [get_batches], which the notebook leaves blank.  [x] is the window
    [arr[:, n:n+seq_length]]. *)
Definition window_x (arr : matrix) (n seq_length : nat) : matrix :=
  columns n (n + seq_length) arr.

(** Modelled from the spec: one row of the assignment [y = ] in the loop of
    [get_batches], which the notebook leaves blank.  The first
    [seq_length - 1] entries are those of [x] shifted by one column,
    [row[n+1 : n+seq_length]]; the last one is [row[n+seq_length]] when that
    column exists and [row[0]] otherwise. *)
Definition target_row (n seq_length : nat) (row : list nat) : list nat :=
  take (seq_length - 1) (drop (n + 1) row) ++
  match row !! (n + seq_length) with
  | Some v => [v]
  | None => option_list (row !! 0)
  end.

(** Modelled from the spec: the assignment [y = ] in the loop of
    [get_batches], row by row. *)
Definition window_y (arr : matrix) (n seq_length : nat) : matrix :=
  target_row n seq_length <$> arr.

(** Modelled from the spec: the three assignments before the loop of
    [get_batches], which the notebook leaves blank ([n_batches = ],
    [arr = ], [arr = ]): the number of full batches (an integer division,
    which Python refuses by zero; the specification takes both sizes to be
    at least 1), [InsufficientDataError] when there is none, the truncation
    to [n_batches * batch_size * seq_length] elements and the reshape into
    [batch_size] rows.  The loop
    [for n in range(0, arr.shape[1], seq_length): ... yield x, y] is the
    notebook's; the generator is modelled by the list of the pairs it
    yields. *)
Definition get_batches (arr : list nat) (batch_size seq_length : nat)
  : result (list (matrix * matrix)) :=
  let batch_chars := batch_size * seq_length in
  if decide (batch_chars = 0) then Raise ZeroDivisionError
  else
  let n_batches := length arr / batch_chars in
  if decide (n_batches = 0) then Raise InsufficientDataError
  else
    let arr := take (n_batches * batch_chars) arr in
    let width := seq_length * n_batches in
    let arr := reshape batch_size width arr in
    Ok ((fun n => (window_x arr n seq_length, window_y arr n seq_length))
          <$> range_step width seq_length).

(** [m.shape == (rows, cols)]. *)
Definition has_shape (rows cols : nat) (m : matrix) : Prop :=
  length m = rows ∧ Forall (fun row => length row = cols) m.

(** [m[i][j]]. *)
Definition entry (m : matrix) (i j : nat) : option nat :=
  m !! i ≫= fun row => row !! j.

End Batches.

(** ** [predict] and [sample] *)

Module Sampler.
Import Alphabet OneHot.

(** What the notebook takes from PyTorch and NumPy and does not define: the
    tensors of the recurrent state and of the network's output, the softmax
    and the random generator.  [forward] is called in [predict] on one
    character (a [1 x 1 x V] input), so that its output [out] has a single
    row; [softmax_dim1 out] is that row of [F.softmax(out, dim=1).data].
    [random_sample] is the uniform draw in the interval from 0 to 1 that
    [np.random.choice] makes. *)
Class Backend := {
  hidden : Type;
  scores : Type;
  softmax_dim1 : scores → list Q;
  rng : Type;
  random_sample : rng → Q * rng
}.

(** The fields of [CharRNN] that [predict] and [sample] read.  The layers
    and the body of [forward] are left blank in the notebook: the network
    is a parameter.  [chars] is the constructor's [tokens]. *)
Record CharRNN `{Backend} := {
  chars : list ascii;
  forward : list (list (list Q)) → hidden → scores * hidden;
  init_hidden : nat → hidden
}.

(** [self.int2char] and [self.char2int], built in [__init__] as the
    dictionaries of the text are. *)
Definition net_int2char `{Backend} (net : CharRNN) : gmap nat ascii :=
  int2char (chars net).
Definition net_char2int `{Backend} (net : CharRNN) : gmap ascii nat :=
  char2int (chars net).

(** *** State and exceptions *)

(** The state a call can change: NumPy's global generator, and how many
    forward passes of the network have run. *)
Record world `{Backend} := {
  gen : rng;
  forward_calls : nat
}.

Definition M `{Backend} (A : Type) : Type := world → world * result A.

Definition ret `{Backend} {A} (a : A) : M A := fun w => (w, Ok a).

Definition bind `{Backend} {A B} (c : M A) (k : A → M B) : M B :=
  fun w =>
    match c w with
    | (w', Ok a) => k a w'
    | (w', Raise e) => (w', Raise e)
    end.

Definition lift `{Backend} {A} (r : result A) : M A := fun w => (w, r).

Notation "'let*' x := c 'in' k" := (bind c (fun x => k))
  (at level 10, x pattern, c at level 100, k at level 200, only parsing).

(** The state after one more forward pass. *)
Definition count_forward `{Backend} (w : world) : world :=
  {| gen := gen w; forward_calls := S (forward_calls w) |}.

(** [net(inputs, h)]. *)
Definition call_forward `{Backend} (net : CharRNN)
    (inputs : list (list (list Q))) (h : hidden) : M (scores * hidden) :=
  fun w => (count_forward w, Ok (forward net inputs h)).

(** One uniform draw from the global generator: the number drawn and the
    state after it. *)
Definition drawn `{Backend} (w : world) : Q := (random_sample (gen w)).1.

Definition after_draw `{Backend} (w : world) : world :=
  {| gen := (random_sample (gen w)).2; forward_calls := forward_calls w |}.

Definition draw `{Backend} : M Q := fun w => (after_draw w, Ok (drawn w)).

(** *** Arrays *)

(** The arrays [predict] hands to NumPy have no axis or one. *)
Inductive ndarray (A : Type) : Type :=
  | Scalar (x : A)
  | Vector (l : list A).
Arguments Scalar {A} x.
Arguments Vector {A} l.

(** [t.numpy().squeeze()] of a [1 x n] tensor given by its row: every axis
    of length one is dropped, so that a [1 x 1] tensor becomes an array
    without axes. *)
Definition squeeze {A} (row : list A) : ndarray A :=
  match row with
  | [x] => Scalar x
  | _ => Vector row
  end.

Definition sum_Q (l : list Q) : Q := foldr Qplus 0%Q l.

(** [p.sum()] and [p / s]. *)
Definition array_sum (p : ndarray Q) : Q :=
  match p with
  | Scalar x => x
  | Vector l => sum_Q l
  end.

Definition array_div (p : ndarray Q) (s : Q) : ndarray Q :=
  match p with
  | Scalar x => Scalar (x / s)%Q
  | Vector l => Vector ((fun x => x / s)%Q <$> l)
  end.

(** *** [torch.topk] *)

(** The order of the result: larger probabilities first. *)
Definition ge_prob (a b : Q * nat) : Prop := Qle_bool b.1 a.1 = true.

Global Instance ge_prob_dec : RelDecision ge_prob.
Proof. intros a b. unfold ge_prob. apply _. Defined.

Global Instance ge_prob_total : Total ge_prob.
Proof.
  intros a b. unfold ge_prob. rewrite !Qle_bool_iff.
  destruct (Qlt_le_dec a.1 b.1) as [Hlt | Hle]; [right | left]; [|done].
  by apply Qlt_le_weak.
Qed.

Global Instance ge_prob_trans : Transitive ge_prob.
Proof.
  intros a b c. unfold ge_prob. rewrite !Qle_bool_iff.
  intros Hab Hbc. by eapply Qle_trans.
Qed.

(** [p.topk(k)] on a [1 x n] tensor given by its row: the [k] largest
    entries, largest first, and their indices; [RuntimeError] when [k] is
    out of range.  (Which of two equal entries comes first is not fixed by
    PyTorch; here it is the one the merge sort puts first.) *)
Definition topk (row : list Q) (k : Z) : result (list Q * list nat) :=
  if decide (0 ≤ k ≤ Z.of_nat (length row))%Z
  then
    let best :=
      take (Z.to_nat k)
           (merge_sort ge_prob (zip row (seq 0 (length row)))) in
    Ok (best.*1, best.*2)
  else Raise RuntimeError.

(** *** [np.random.choice] *)

(** The population [a]: an array without axes holding [n] stands for
    [np.arange(n)] and must be positive; an array with one axis must not be
    empty. *)
Definition population (a : ndarray nat) : result (list nat) :=
  match a with
  | Scalar n => if decide (n = 0) then Raise ValueError else Ok (seq 0 n)
  | Vector l => if decide (l = []) then Raise ValueError else Ok l
  end.

(** The probabilities [p]: [len(p)] raises [TypeError] on an array without
    axes; otherwise [p] must have the size of the population, no negative
    entry, and sum to one. *)
Definition probabilities (pop_size : nat) (p : ndarray Q) : result (list Q) :=
  match p with
  | Scalar _ => Raise TypeError
  | Vector q =>
      if decide (length q = pop_size
                 ∧ Forall (fun x => Qle_bool 0 x = true) q
                 ∧ Qeq_bool (sum_Q q) 1 = true)
      then Ok q
      else Raise ValueError
  end.

(** [p.cumsum()]. *)
Fixpoint cumsum (acc : Q) (l : list Q) : list Q :=
  match l with
  | [] => []
  | x :: l' => (acc + x)%Q :: cumsum (acc + x)%Q l'
  end.

(** [cdf.searchsorted(u, side='right')] on a sorted [cdf]: the number of
    entries that are at most [u]. *)
Definition searchsorted_right (cdf : list Q) (u : Q) : nat :=
  length (filter (fun c => Qle_bool c u = true) cdf).

(** [cdf = p.cumsum(); cdf /= cdf[-1]]. *)
Definition normalized_cdf (q : list Q) : list Q :=
  let cdf := cumsum 0 q in
  (fun c => c / default 0 (last cdf))%Q <$> cdf.

Definition item {A} (l : list A) (i : nat) : result A :=
  match l !! i with
  | Some x => Ok x
  | None => Raise IndexError
  end.

(** [np.random.choice(a, p=p)]: one element of the population, found by
    inverting the cumulative distribution at a uniform draw. *)
Definition choice `{Backend} (a : ndarray nat) (p : ndarray Q) : M nat :=
  let* pop := lift (population a) in
  let* q := lift (probabilities (length pop) p) in
  let* u := draw in
  lift (item pop (searchsorted_right (normalized_cdf q) u)).

(** *** [predict] *)

(** [tuple([each.data for each in h])]: iterating over [None] raises
    [TypeError]; detaching a tensor from its history does not change it. *)
Definition detach `{Backend} (h : option hidden) : result hidden :=
  match h with
  | None => Raise TypeError
  | Some h => Ok h
  end.

(** The branch on [top_k]: the probabilities to draw from and the
    candidate characters. *)
Definition candidates `{Backend} (net : CharRNN) (p : list Q)
    (top_k : option Z) : result (list Q * ndarray nat) :=
  match top_k with
  | None => Ok (p, Vector (seq 0 (length (chars net))))
  | Some k =>
      match topk p k with
      | Raise e => Raise e
      | Ok (p, top_ch) => Ok (p, squeeze top_ch)
      end
  end.

(** [predict(net, char, h, top_k)].  The moves between devices under
    [train_on_gpu] ([inputs.cuda()], [p.cpu()]) and [torch.from_numpy] do
    not change values and have no counterpart here. *)
Definition predict `{Backend} (net : CharRNN) (char : ascii)
    (h : option hidden) (top_k : option Z) : M (ascii * hidden) :=
  let* i := lift (getitem (net_char2int net) char) in
  let* x := lift (one_hot_encode [[i]] (length (chars net))) in
  let* h := lift (detach h) in
  let* (out, h) := call_forward net x h in
  let p := softmax_dim1 out in
  let* (p, top_ch) := lift (candidates net p top_k) in
  let p := squeeze p in
  let* char := choice top_ch (array_div p (array_sum p)) in
  let* c := lift (getitem (net_int2char net) char) in
  ret (c, h).

(** *** [sample] *)

(** Reading a local variable: [UnboundLocalError] when nothing has been
    assigned to it. *)
Definition read_local {A} (v : option A) : result A :=
  match v with
  | Some a => Ok a
  | None => Raise UnboundLocalError
  end.

(** [chars[-1]]. *)
Definition last_item {A} (l : list A) : result A :=
  match last l with
  | Some a => Ok a
  | None => Raise IndexError
  end.

(** [for ch in prime: char, h = predict(net, ch, h, top_k=top_k)]; the
    local [char] is unbound until the first iteration has run. *)
Fixpoint prime_loop `{Backend} (net : CharRNN) (top_k : option Z)
    (prime : list ascii) (char : option ascii) (h : hidden)
  : M (option ascii * hidden) :=
  match prime with
  | [] => ret (char, h)
  | ch :: prime' =>
      let* (c, h) := predict net ch (Some h) top_k in
      prime_loop net top_k prime' (Some c) h
  end.

(** [for ii in range(size): char, h = predict(net, chars[-1], h, ...);
    chars.append(char)]. *)
Fixpoint generate_loop `{Backend} (net : CharRNN) (top_k : option Z)
    (size : nat) (chars : list ascii) (h : hidden) : M (list ascii) :=
  match size with
  | 0 => ret chars
  | S size' =>
      let* prev := lift (last_item chars) in
      let* (c, h) := predict net prev (Some h) top_k in
      generate_loop net top_k size' (chars ++ [c]) h
  end.

(** [sample(net, size, prime, top_k)]; [net.cuda()], [net.cpu()] and
    [net.eval()] do not change what [forward] computes here. *)
Definition sample `{Backend} (net : CharRNN) (size : Z) (prime : string)
    (top_k : option Z) : M string :=
  let chars := String.list_ascii_of_string prime in
  let h := init_hidden net 1 in
  let* (char, h) := prime_loop net top_k chars None h in
  let* char := lift (read_local char) in
  let chars := chars ++ [char] in
  let* chars := generate_loop net top_k (Z.to_nat size) chars h in
  ret (String.string_of_list_ascii chars).

(** Runs the plumbing of [M] in the goal: the binds, and the steps that
    only return or raise. *)
Ltac run_M :=
  unfold bind, lift, ret, call_forward, draw, getitem, detach, item.

(** *** Predicates the statements use *)

(** The network answers every step with one probability, positive, for
    each of its characters (what a softmax over [len(net.chars)] scores
    gives). *)
Definition distribution_ok `{Backend} (net : CharRNN) : Prop :=
  ∀ x h,
    length (softmax_dim1 (forward net x h).1) = length (chars net)
    ∧ Forall (fun q => (0 < q)%Q) (softmax_dim1 (forward net x h).1).

(** The generator draws from the interval from 0 (included) to 1
    (excluded), as [random_sample] of NumPy does. *)
Definition uniform_ok `{Backend} : Prop :=
  ∀ g, (0 <= (random_sample g).1)%Q ∧ ((random_sample g).1 < 1)%Q.

(** The values of [top_k] for which the draw of [predict] is defined:
    none, or at least two and at most the number of characters. *)
Definition top_k_drawable (v : nat) (top_k : option Z) : Prop :=
  match top_k with
  | None => 2 ≤ v
  | Some k => (2 ≤ k ≤ Z.of_nat v)%Z
  end.

(** Index [i] is one of the [k] most probable of [row]: fewer than [k]
    entries are strictly larger than entry [i]. *)
Definition among_top (k : nat) (row : list Q) (i : nat) : Prop :=
  ∃ v, row !! i = Some v
       ∧ length (filter (fun y => (v < y)%Q) row) < k.

(** [p / p.sum()] on an array with one axis. *)
Definition renormalize (vals : list Q) : list Q :=
  (fun x => x / sum_Q vals)%Q <$> vals.

(** The input of the forward pass for the character of index [i]:
    [one_hot_encode(np.array([[i]]), len(net.chars))]. *)
Definition one_hot_input `{Backend} (net : CharRNN) (i : nat)
  : list (list (list Q)) :=
  [[ <[i := 1%Q]> (replicate (length (chars net)) 0%Q) ]].

(** The sum of the first [n] entries. *)
Definition prefix_sum (q : list Q) (n : nat) : Q := sum_Q (take n q).

(** The entries of a list grow with the index. *)
Definition nondecreasing (l : list Q) : Prop :=
  ∀ i j x y, i ≤ j → l !! i = Some x → l !! j = Some y → (x <= y)%Q.

(** The state after one call of [predict] that returned: one more forward
    pass, one more draw; and after [n] such calls. *)
Definition step_world `{Backend} (w : world) : world :=
  after_draw (count_forward w).

Definition advance `{Backend} (n : nat) (w : world) : world :=
  Nat.iter n step_world w.

(** The generator after [n] draws. *)
Definition gen_after `{Backend} (n : nat) (g : rng) : rng :=
  Nat.iter n (fun g => (random_sample g).2) g.

End Sampler.

(** ** A small network and corpus, for the examples *)

Module Demo.
Import Sampler.

(** A backend whose scores are the probabilities themselves and whose
    generator cycles through the draws 0, 1/4, 1/2, 3/4. *)
Global Instance backend : Backend := {|
  hidden := nat;
  scores := list Q;
  softmax_dim1 := fun out => out;
  rng := nat;
  random_sample := fun n => (Z.of_nat (n mod 4) # 4, S n)
|}.

(** A network over the characters [a], [b], [c] that always answers with
    the probabilities 1/5, 1/2, 3/10 and counts its steps in the state. *)
Definition net : CharRNN := {|
  chars := ["a"; "b"; "c"]%char;
  forward := fun _ h => ([1 # 5; 1 # 2; 3 # 10]%Q, S h);
  init_hidden := fun _ => 0
|}.

Definition w0 : world := {| gen := 0; forward_calls := 0 |}.

(** A network over the single character [a]; its one probability is 1. *)
Definition single : CharRNN := {|
  chars := ["a"]%char;
  forward := fun _ h => ([1]%Q, S h);
  init_hidden := fun _ => 0
|}.

Definition corpus : list nat := [0; 1; 2; 3; 4; 5; 6; 7].

End Demo.

(** * Properties *)

(** ** The alphabet is a bijection *)

Section alphabet_facts.
Import Alphabet.

Lemma fill_int2char_lookup d n l i :
  fill_int2char d n l !! i =
    if decide (n ≤ i < n + length l) then l !! (i - n) else d !! i.
Proof.
  revert d n. induction l as [|c l IH]; intros d n; simpl.
  - case_decide; [lia | done].
  - unfold fill_int2char in *. simpl. rewrite IH.
    destruct (decide (i = n)) as [-> | Hne].
    + rewrite decide_False by lia. rewrite decide_True by lia.
      rewrite lookup_insert_eq. by rewrite Nat.sub_diag.
    + rewrite lookup_insert_ne by done.
      destruct (decide (S n ≤ i < S n + length l)).
      * rewrite decide_True by lia.
        replace (i - n) with (S (i - S n)) by lia. done.
      * rewrite decide_False by lia. done.
Qed.

Lemma int2char_lookup chars i : int2char chars !! i = chars !! i.
Proof.
  change (int2char chars) with (fill_int2char ∅ 0 chars).
  rewrite fill_int2char_lookup. case_decide.
  - by rewrite Nat.sub_0_r.
  - rewrite lookup_empty. symmetry. apply lookup_ge_None. lia.
Qed.

Lemma fill_char2int_fresh d n l c :
  c ∉ l → fill_char2int d n l !! c = d !! c.
Proof.
  revert d n. induction l as [|x l IH]; intros d n Hc; [done|].
  apply not_elem_of_cons in Hc as [Hne Hc].
  unfold fill_char2int in *. simpl. rewrite IH by done.
  by rewrite lookup_insert_ne.
Qed.

Lemma fill_char2int_lookup d n l c j :
  NoDup l → l !! j = Some c → fill_char2int d n l !! c = Some (n + j).
Proof.
  revert d n j. induction l as [|x l IH]; intros d n j Hnd Hj; [done|].
  apply NoDup_cons in Hnd as [Hx Hnd].
  unfold fill_char2int in *. simpl. destruct j as [|j]; simpl in Hj.
  - injection Hj as ->.
    pose proof (fill_char2int_fresh (<[c:=n]> d) (S n) l c Hx) as Hf.
    unfold fill_char2int in Hf. rewrite Hf, lookup_insert_eq.
    by rewrite Nat.add_0_r.
  - rewrite (IH _ _ j) by done. f_equal. lia.
Qed.

(** Whatever [char2int] holds for a character is a position of it. *)
Lemma fill_char2int_sound d n l c i :
  fill_char2int d n l !! c = Some i →
  (n ≤ i ∧ l !! (i - n) = Some c) ∨ d !! c = Some i.
Proof.
  revert d n. induction l as [|x l IH]; intros d n Hi; [by right|].
  unfold fill_char2int in *. simpl in Hi.
  destruct (IH _ _ Hi) as [[Hle Hl] | Hd].
  - left. split; [lia|]. replace (i - n) with (S (i - S n)) by lia. done.
  - destruct (decide (x = c)) as [-> | Hne].
    + rewrite lookup_insert_eq in Hd. injection Hd as <-.
      left. split; [lia|]. by rewrite Nat.sub_diag.
    + rewrite lookup_insert_ne in Hd by done. by right.
Qed.

Lemma char2int_lookup chars c j :
  NoDup chars → chars !! j = Some c → char2int chars !! c = Some j.
Proof.
  intros Hnd Hj.
  change (char2int chars) with (fill_char2int ∅ 0 chars).
  by rewrite (fill_char2int_lookup _ _ _ _ j).
Qed.

Lemma char2int_sound chars c i :
  char2int chars !! c = Some i → chars !! i = Some c.
Proof.
  change (char2int chars) with (fill_char2int ∅ 0 chars). intros Hi.
  apply fill_char2int_sound in Hi as [[_ Hl] | Hd].
  - by rewrite Nat.sub_0_r in Hl.
  - by rewrite lookup_empty in Hd.
Qed.

(** Every character of the list has an index, also when the list repeats
    characters. *)
Lemma char2int_is_Some chars c :
  c ∈ chars → is_Some (char2int chars !! c).
Proof.
  change (char2int chars) with (fill_char2int ∅ 0 chars).
  generalize (∅ : gmap ascii nat) 0.
  induction chars as [|x l IH]; intros d n Hc; [by apply elem_of_nil in Hc|].
  unfold fill_char2int in *. simpl.
  destruct (decide (c ∈ l)) as [Hin | Hnin]; [by apply IH|].
  apply elem_of_cons in Hc as [-> | Hc]; [|done].
  pose proof (fill_char2int_fresh (<[x:=n]> d) (S n) l x Hnin) as Hf.
  unfold fill_char2int in Hf. rewrite Hf, lookup_insert_eq. by eexists.
Qed.

(** C8.  The alphabet built from the text, [chars = tuple(set(text))],
    [int2char = dict(enumerate(chars))] and its inverse comprehension
    [char2int], is a total bijection between the distinct characters of
    the text and the indices [0, ..., V-1], [V = len(chars)]: every
    character [ch] of the text has an index below [V] with
    [int2char[char2int[ch]] == ch]; every index [i] below [V] has a
    character of the text with [char2int[int2char[i]] == i]; and the
    dictionaries have no other keys. *)
Theorem alphabet_bijection (text : string) (chars : list ascii) :
  tuple_of_set text chars →
  (∀ ch, ch ∈ String.list_ascii_of_string text →
     ∃ i, getitem (char2int chars) ch = Ok i
          ∧ i < length chars
          ∧ getitem (int2char chars) i = Ok ch)
  ∧ (∀ i, i < length chars →
     ∃ ch, getitem (int2char chars) i = Ok ch
           ∧ ch ∈ String.list_ascii_of_string text
           ∧ getitem (char2int chars) ch = Ok i)
  ∧ (∀ i, is_Some (int2char chars !! i) ↔ i < length chars)
  ∧ (∀ ch, is_Some (char2int chars !! ch)
           ↔ ch ∈ String.list_ascii_of_string text).
Proof.
  intros [Hnd Hset]. unfold getitem. repeat split.
  - intros ch Hch. apply Hset in Hch.
    apply list_elem_of_lookup in Hch as [i Hi]. exists i.
    rewrite (char2int_lookup _ _ _ Hnd Hi), int2char_lookup, Hi.
    repeat split. by eapply lookup_lt_Some.
  - intros i Hi. destruct (lookup_lt_is_Some_2 chars i Hi) as [ch Hch].
    exists ch. rewrite int2char_lookup, Hch.
    rewrite (char2int_lookup _ _ _ Hnd Hch). repeat split.
    apply Hset. by eapply list_elem_of_lookup_2.
  - rewrite int2char_lookup. apply lookup_lt_is_Some_1.
  - rewrite int2char_lookup. apply lookup_lt_is_Some_2.
  - intros [i Hi]. apply char2int_sound in Hi. apply Hset.
    by eapply list_elem_of_lookup_2.
  - intros Hch. apply char2int_is_Some. by apply Hset.
Qed.

Lemma alphabet_bijection_witness :
  tuple_of_set "abca" ["c"; "a"; "b"]%char
  ∧ getitem (char2int ["c"; "a"; "b"]%char) "a"%char = Ok 1
  ∧ (∀ i, i < 3 →
     ∃ ch, getitem (int2char ["c"; "a"; "b"]%char) i = Ok ch
           ∧ ch ∈ String.list_ascii_of_string "abca"
           ∧ getitem (char2int ["c"; "a"; "b"]%char) ch = Ok i).
Proof.
  assert (Hset : tuple_of_set "abca" ["c"; "a"; "b"]%char).
  { split.
    - apply (bool_decide_unpack _). vm_compute. exact I.
    - intros c. simpl. rewrite !elem_of_cons, !elem_of_nil. tauto. }
  split; [exact Hset|]. split; [vm_compute; reflexivity|].
  exact (proj1 (proj2 (alphabet_bijection "abca" _ Hset))).
Defined.

(** Encoding a list of characters of the alphabet gives indices below [V]
    that [int2char] maps back to the characters. *)
Lemma encode_list_chars chars l :
  NoDup chars → Forall (fun c => c ∈ chars) l →
  ∃ r, encode_list (char2int chars) l = Ok r
       ∧ Forall (fun i => i < length chars) r
       ∧ (fun i => getitem (int2char chars) i) <$> r = Ok <$> l.
Proof.
  intros Hnd. induction 1 as [|c l Hc _ (r & Hr & Hlt & Hdec)].
  - by exists [].
  - apply list_elem_of_lookup in Hc as [i Hi].
    exists (i :: r). split; [|split].
    + simpl. unfold getitem.
      by rewrite (char2int_lookup _ _ _ Hnd Hi), Hr.
    + constructor; [by eapply lookup_lt_Some | done].
    + rewrite !fmap_cons, Hdec. f_equal. unfold getitem.
      by rewrite int2char_lookup, Hi.
Qed.

(** The encoded text [encoded = np.array([char2int[ch] for ch in text])]
    exists, holds only indices below [V], and is decoded by [int2char] back
    to the text. *)
Theorem encoded_roundtrip (text : string) (chars : list ascii) :
  tuple_of_set text chars →
  ∃ l, encoded chars text = Ok l
       ∧ Forall (fun i => i < length chars) l
       ∧ (fun i => getitem (int2char chars) i) <$> l
         = Ok <$> String.list_ascii_of_string text.
Proof.
  intros [Hnd Hset]. apply encode_list_chars; [done|].
  apply Forall_forall. intros c Hc. by apply Hset.
Qed.

Lemma encoded_roundtrip_witness :
  ∃ l, encoded ["c"; "a"; "b"]%char "abca" = Ok l
       ∧ Forall (fun i => i < 3) l
       ∧ (fun i => getitem (int2char ["c"; "a"; "b"]%char) i) <$> l
         = Ok <$> String.list_ascii_of_string "abca".
Proof.
  apply (encoded_roundtrip "abca" ["c"; "a"; "b"]%char). split.
  - apply (bool_decide_unpack _). vm_compute. exact I.
  - intros c. simpl. rewrite !elem_of_cons, !elem_of_nil. tauto.
Defined.

End alphabet_facts.

(** ** Batches *)

Section batches_facts.
Import Batches.

Lemma range_step_length (m nb : nat) :
  0 < m → length (range_step (m * nb) m) = nb.
Proof.
  intros Hm. unfold range_step. rewrite length_fmap, length_seq.
  symmetry. apply (Nat.div_unique _ _ _ (m - 1)); lia.
Qed.

Lemma range_step_elem (m nb n : nat) :
  0 < m → n ∈ range_step (m * nb) m → ∃ k, n = k * m ∧ k < nb.
Proof.
  intros Hm Hn. pose proof (range_step_length m nb Hm) as Hlen.
  unfold range_step in *. rewrite length_fmap, length_seq in Hlen.
  apply list_elem_of_fmap in Hn as (k & -> & Hk).
  apply elem_of_seq in Hk. exists k. split; [done | lia].
Qed.

Lemma reshape_length rows width arr : length (reshape rows width arr) = rows.
Proof. unfold reshape. by rewrite length_fmap, length_seq. Qed.

Lemma reshape_lookup rows width arr i :
  i < rows →
  reshape rows width arr !! i = Some (take width (drop (i * width) arr)).
Proof.
  intros Hi. unfold reshape. rewrite list_lookup_fmap.
  by rewrite lookup_seq_lt.
Qed.

Lemma reshape_row_length rows width arr i row :
  rows * width ≤ length arr →
  reshape rows width arr !! i = Some row → length row = width.
Proof.
  intros Hlen Hrow.
  assert (Hi : i < rows).
  { apply lookup_lt_Some in Hrow. by rewrite reshape_length in Hrow. }
  rewrite reshape_lookup in Hrow by done. injection Hrow as <-.
  rewrite length_take, length_drop. nia.
Qed.

Lemma target_row_length n m row :
  0 < m → n + m ≤ length row → length (target_row n m row) = m.
Proof.
  intros Hm Hrow. unfold target_row.
  rewrite length_app, length_take, length_drop.
  destruct (row !! (n + m)) as [v|]; simpl; [lia|].
  destruct (lookup_lt_is_Some_2 row 0 ltac:(lia)) as [v ->]. simpl. lia.
Qed.

(** What [get_batches] has computed when it yields batches. *)
Lemma get_batches_Ok arr n_rows m bs :
  get_batches arr n_rows m = Ok bs →
  let nb := length arr / (n_rows * m) in
  let a := reshape n_rows (m * nb) (take (nb * (n_rows * m)) arr) in
  0 < n_rows ∧ 0 < m ∧ 0 < nb
  ∧ bs = (fun n => (window_x a n m, window_y a n m))
           <$> range_step (m * nb) m.
Proof.
  unfold get_batches. repeat case_decide; try done.
  intros [= <-]. simpl. repeat split; try lia; nia.
Qed.

Lemma get_batches_rows arr n_rows m i row :
  let nb := length arr / (n_rows * m) in
  0 < n_rows * m →
  reshape n_rows (m * nb) (take (nb * (n_rows * m)) arr) !! i = Some row →
  length row = m * nb.
Proof.
  intros nb Hpos. apply reshape_row_length.
  rewrite length_take.
  pose proof (Nat.Div0.mul_div_le (length arr) (n_rows * m)) as Hdiv.
  fold nb in Hdiv. nia.
Qed.

(** C4.  For a corpus [arr] of length [L], a batch size [N] of at least 1 and
    a sequence length [M] of at least 1 with [N * M <= L],
    [get_batches(arr, N, M)] yields exactly [floor(L / (N * M))] batches, and
    every [X] and every [Y] it yields has shape [N x M]. *)
Theorem get_batches_count_shape (arr : list nat) (n_rows m : nat) :
  1 ≤ n_rows → 1 ≤ m → n_rows * m ≤ length arr →
  ∃ bs, get_batches arr n_rows m = Ok bs
        ∧ length bs = length arr / (n_rows * m)
        ∧ Forall (fun b => has_shape n_rows m b.1 ∧ has_shape n_rows m b.2) bs.
Proof.
  intros Hn Hm Hlen.
  assert (Hnb : 0 < length arr / (n_rows * m)).
  { apply Nat.div_str_pos. nia. }
  destruct (get_batches arr n_rows m) as [bs | e] eqn:Hget.
  2:{ unfold get_batches in Hget. repeat case_decide; try done; nia. }
  exists bs. split; [done|].
  apply get_batches_Ok in Hget as (_ & _ & _ & ->).
  split; [rewrite length_fmap; apply range_step_length; lia|].
  apply Forall_fmap, Forall_forall. intros n Hin. simpl.
  apply range_step_elem in Hin as (k & -> & Hk); [|lia].
  set (nb := length arr / (n_rows * m)) in *.
  assert (Hwin : k * m + m ≤ m * nb) by nia.
  unfold has_shape, window_x, window_y, columns.
  rewrite !length_fmap, reshape_length.
  repeat split; try done; apply Forall_fmap, Forall_lookup; intros i row Hrow;
    apply get_batches_rows in Hrow; simpl; try nia.
  - rewrite length_take, length_drop. lia.
  - apply target_row_length; lia.
Qed.

Lemma get_batches_count_shape_witness :
  ∃ bs, get_batches Demo.corpus 2 2 = Ok bs
        ∧ length bs = 2
        ∧ Forall (fun b => has_shape 2 2 b.1 ∧ has_shape 2 2 b.2) bs.
Proof.
  apply (get_batches_count_shape Demo.corpus 2 2); simpl; lia.
Defined.

(** C2.  In every batch [(X, Y)] that [get_batches] yields, for every row
    [i] below [N] and every column [j] with [j < M - 1], [Y[i][j]] is
    [X[i][j+1]]: the target is the input shifted one column to the left, on
    all but its last column. *)
Theorem get_batches_shift (arr : list nat) (n_rows m : nat)
    (bs : list (matrix * matrix)) (x y : matrix) (i j : nat) :
  get_batches arr n_rows m = Ok bs →
  (x, y) ∈ bs →
  i < n_rows → j + 1 < m →
  ∃ v, entry y i j = Some v ∧ entry x i (j + 1) = Some v.
Proof.
  intros Hget Hin Hi Hj.
  apply get_batches_Ok in Hget as (Hn & Hm & Hnb & ->).
  apply list_elem_of_fmap in Hin as (n & [= -> ->] & Hin).
  apply range_step_elem in Hin as (k & -> & Hk); [|lia].
  set (nb := length arr / (n_rows * m)) in *.
  set (a := reshape n_rows (m * nb) (take (nb * (n_rows * m)) arr)).
  destruct (lookup_lt_is_Some_2 a i) as [row Hrow].
  { unfold a. by rewrite reshape_length. }
  pose proof (get_batches_rows arr n_rows m i row ltac:(nia) Hrow) as Hlen.
  fold nb in Hlen.
  destruct (lookup_lt_is_Some_2 row (k * m + 1 + j)) as [v Hv]; [nia|].
  exists v. unfold entry, window_x, window_y, columns.
  rewrite !list_lookup_fmap, Hrow. simpl. split.
  - unfold target_row. rewrite lookup_app_l.
    + rewrite lookup_take_lt by lia. by rewrite lookup_drop.
    + rewrite length_take, length_drop. nia.
  - rewrite lookup_take_lt by lia. rewrite lookup_drop.
    by replace (k * m + (j + 1)) with (k * m + 1 + j) by lia.
Qed.

Lemma get_batches_shift_witness :
  ∃ v, entry [[1; 2]; [5; 6]] 1 0 = Some v
       ∧ entry [[0; 1]; [4; 5]] 1 (0 + 1) = Some v.
Proof.
  apply (get_batches_shift Demo.corpus 2 2
           [([[0; 1]; [4; 5]], [[1; 2]; [5; 6]]);
            ([[2; 3]; [6; 7]], [[3; 0]; [7; 4]])]).
  - vm_compute. reflexivity.
  - apply list_elem_of_here.
  - lia.
  - lia.
Defined.

(** C7.  For a corpus of length [L] and [N >= 1], [M >= 1] with
    [floor(L / (N * M)) == 0], [get_batches] fails with
    [InsufficientDataError] and yields no batch. *)
Theorem get_batches_insufficient (arr : list nat) (n_rows m : nat) :
  1 ≤ n_rows → 1 ≤ m → length arr / (n_rows * m) = 0 →
  get_batches arr n_rows m = Raise InsufficientDataError.
Proof.
  intros Hn Hm Hnb. unfold get_batches.
  rewrite decide_False by nia. by rewrite decide_True.
Qed.

Lemma get_batches_insufficient_witness :
  get_batches Demo.corpus 3 3 = Raise InsufficientDataError.
Proof.
  apply (get_batches_insufficient Demo.corpus 3 3); [lia | lia |].
  vm_compute. reflexivity.
Defined.

(** The example of the specification: the corpus 0, ..., 7 with [N = 2] and
    [M = 2] is reshaped into the rows 0 1 2 3 and 4 5 6 7, and the first
    window is 0 1 over 4 5. *)
Example get_batches_example :
  reshape 2 4 Demo.corpus = [[0; 1; 2; 3]; [4; 5; 6; 7]]
  ∧ get_batches Demo.corpus 2 2 =
      Ok [([[0; 1]; [4; 5]], [[1; 2]; [5; 6]]);
          ([[2; 3]; [6; 7]], [[3; 0]; [7; 4]])].
Proof. split; reflexivity. Qed.

End batches_facts.

(** ** Sums, cumulative sums and the inverse of the distribution function *)

Section probability_facts.
Import Sampler.

Local Open Scope Q_scope.

Lemma sum_Q_app l1 l2 : sum_Q (l1 ++ l2) == sum_Q l1 + sum_Q l2.
Proof.
  induction l1 as [|x l1 IH]; simpl; [ring|]. rewrite IH. ring.
Qed.

Lemma sum_Q_nonneg l : Forall (fun x => 0 <= x) l → 0 <= sum_Q l.
Proof.
  induction 1 as [|x l Hx _ IH]; simpl; [apply Qle_refl|].
  replace 0 with (0 + 0) by reflexivity. by apply Qplus_le_compat.
Qed.

Lemma sum_Q_pos l : l ≠ [] → Forall (fun x => 0 < x) l → 0 < sum_Q l.
Proof.
  intros Hne Hall. destruct Hall as [|x l Hx Hl]; [done|]. simpl.
  assert (0 <= sum_Q l).
  { apply sum_Q_nonneg. eapply Forall_impl; [done|].
    intros. by apply Qlt_le_weak. }
  lra.
Qed.

Lemma sum_Q_div l s : sum_Q ((fun x => x / s) <$> l) == sum_Q l / s.
Proof.
  induction l as [|x l IH]; simpl.
  - unfold Qdiv. ring.
  - rewrite IH. unfold Qdiv. ring.
Qed.

Lemma prefix_sum_all q n : length q ≤ n → prefix_sum q n = sum_Q q.
Proof. intros Hn. unfold prefix_sum. by rewrite take_ge. Qed.

Lemma length_cumsum acc l : length (cumsum acc l) = length l.
Proof. revert acc. induction l; intros; simpl; [done | by rewrite IHl]. Qed.

Lemma cumsum_lookup acc l j y :
  cumsum acc l !! j = Some y → y == acc + prefix_sum l (S j).
Proof.
  revert acc j. induction l as [|x l IH]; intros acc j Hy; [done|].
  destruct j as [|j]; simpl in Hy.
  - injection Hy as <-. unfold prefix_sum. simpl. rewrite ?take_0. simpl.
    ring.
  - apply IH in Hy. rewrite Hy. unfold prefix_sum. simpl. ring.
Qed.

Lemma cumsum_last acc l y :
  last (cumsum acc l) = Some y → y == acc + sum_Q l.
Proof.
  rewrite last_lookup, length_cumsum. intros Hy.
  apply cumsum_lookup in Hy. rewrite Hy.
  rewrite prefix_sum_all by lia. reflexivity.
Qed.

Lemma nondecreasing_tail x l : nondecreasing (x :: l) → nondecreasing l.
Proof. intros Hl i j a b Hij Ha Hb. by apply (Hl (S i) (S j)); [lia|..]. Qed.

(** [searchsorted] on a sorted list: the entries before the result are at
    most [u], the entries from the result on are above [u]. *)
Lemma searchsorted_right_spec l u :
  nondecreasing l →
  (∀ j y, (j < searchsorted_right l u)%nat → l !! j = Some y → y <= u)
  ∧ (∀ j y, (searchsorted_right l u ≤ j)%nat → l !! j = Some y → u < y).
Proof.
  unfold searchsorted_right. induction l as [|x l IH]; intros Hmono.
  - split; intros j y _ Hy; done.
  - destruct (IH (nondecreasing_tail _ _ Hmono)) as [IHlo IHhi].
    rewrite filter_cons. destruct (decide (Qle_bool x u = true)) as [Hx | Hx].
    + simpl. split; intros [|j] y Hj Hy; simpl in Hy.
      * injection Hy as <-. by apply Qle_bool_iff.
      * apply (IHlo j); [lia | done].
      * lia.
      * apply (IHhi j); [lia | done].
    + assert (Hux : u < x).
      { apply Qnot_le_lt. intros Hle. by apply Hx, Qle_bool_iff. }
      assert (Hall : ∀ j y, l !! j = Some y → u < y).
      { intros j y Hy. eapply Qlt_le_trans; [exact Hux|].
        by apply (Hmono 0%nat (S j)); [lia|..]. }
      assert (Hnil : filter (fun c => Qle_bool c u = true) l = []).
      { apply elem_of_nil_inv. intros y [Hy Hin]%list_elem_of_filter.
        apply list_elem_of_lookup in Hin as [j Hj].
        apply Qle_bool_iff in Hy. apply Hall in Hj.
        exact (Qle_not_lt _ _ Hy Hj). }
      rewrite Hnil. simpl. split; intros [|j] y Hj Hy; simpl in Hy; try lia.
      * by injection Hy as <-.
      * by apply (Hall j).
Qed.

(** The normalized cumulative distribution of probabilities that sum to one
    holds their partial sums, and these grow. *)
Lemma normalized_cdf_lookup q j y :
  sum_Q q == 1 →
  normalized_cdf q !! j = Some y → y == prefix_sum q (S j).
Proof.
  intros Hsum. unfold normalized_cdf. rewrite list_lookup_fmap.
  destruct (cumsum 0 q !! j) as [c|] eqn:Hc; [|done]. intros [= <-].
  assert (Hlast : default 0 (last (cumsum 0 q)) == 1).
  { destruct (last (cumsum 0 q)) as [d|] eqn:Hd.
    - apply cumsum_last in Hd. simpl. rewrite Hd, Hsum. ring.
    - apply last_None in Hd. by rewrite Hd in Hc. }
  apply cumsum_lookup in Hc. rewrite Hc, Hlast. field.
Qed.

Lemma length_normalized_cdf q : length (normalized_cdf q) = length q.
Proof. unfold normalized_cdf. by rewrite length_fmap, length_cumsum. Qed.

Lemma prefix_sum_mono q i j :
  Forall (fun x => 0 <= x) q → (i ≤ j)%nat → prefix_sum q i <= prefix_sum q j.
Proof.
  intros Hq Hij. unfold prefix_sum.
  replace j with (i + (j - i))%nat by lia.
  rewrite <- (take_drop i (take (i + (j - i)) q)).
  rewrite take_take, Nat.min_l by lia. rewrite sum_Q_app.
  assert (0 <= sum_Q (drop i (take (i + (j - i)) q))); [|lra].
  apply sum_Q_nonneg. apply Forall_drop, Forall_take. done.
Qed.

Lemma normalized_cdf_nondecreasing q :
  Forall (fun x => 0 <= x) q → sum_Q q == 1 →
  nondecreasing (normalized_cdf q).
Proof.
  intros Hq Hsum i j x y Hij Hx Hy.
  apply (normalized_cdf_lookup _ _ _ Hsum) in Hx, Hy.
  rewrite Hx, Hy. apply prefix_sum_mono; [done | lia].
Qed.

(** The draw of [np.random.choice]: for probabilities [q] that sum to one
    and a uniform [u], the index found is a position of [q], and [u] lies
    between the sum of the probabilities before it and that sum plus its
    own probability. *)
Lemma searchsorted_interval q u :
  q ≠ [] → Forall (fun x => 0 <= x) q → sum_Q q == 1 →
  0 <= u → u < 1 →
  let idx := searchsorted_right (normalized_cdf q) u in
  (idx < length q)%nat
  ∧ prefix_sum q idx <= u
  ∧ u < prefix_sum q (S idx).
Proof.
  intros Hne Hq Hsum Hu0 Hu1. cbv zeta.
  destruct (searchsorted_right_spec (normalized_cdf q) u
              (normalized_cdf_nondecreasing q Hq Hsum)) as [Hlo Hhi].
  set (idx := searchsorted_right (normalized_cdf q) u) in *.
  assert (Hlen : (0 < length q)%nat) by (destruct q; [done | simpl; lia]).
  assert (Hidx : (idx < length q)%nat).
  { destruct (decide (idx < length q)%nat) as [|Hge]; [done|]. exfalso.
    destruct (lookup_lt_is_Some_2 (normalized_cdf q) (pred (length q)))
      as [y Hy]; [rewrite length_normalized_cdf; lia|].
    assert (Hyu : y <= u) by (apply (Hlo (pred (length q))); [lia | done]).
    apply (normalized_cdf_lookup _ _ _ Hsum) in Hy.
    rewrite prefix_sum_all in Hy by lia. lra. }
  split; [done|]. split.
  - destruct idx as [|n] eqn:Hn.
    + unfold prefix_sum. rewrite take_0. simpl. done.
    + destruct (lookup_lt_is_Some_2 (normalized_cdf q) n) as [y Hy];
        [rewrite length_normalized_cdf; lia|].
      assert (Hyu : y <= u) by (apply (Hlo n); [lia | done]).
      apply (normalized_cdf_lookup _ _ _ Hsum) in Hy. by rewrite <- Hy.
  - destruct (lookup_lt_is_Some_2 (normalized_cdf q) idx) as [y Hy];
      [rewrite length_normalized_cdf; lia|].
    assert (Hyu : u < y) by (apply (Hhi idx); [lia | done]).
    apply (normalized_cdf_lookup _ _ _ Hsum) in Hy. by rewrite <- Hy.
Qed.

End probability_facts.

(** ** [topk] returns the most probable candidates *)

Section topk_facts.
Import Sampler.

(** In a list sorted with the larger probabilities first, fewer than [j]
    probabilities are strictly larger than the one at position [j]. *)
Lemma sorted_count_le (s : list (Q * nat)) j v i :
  StronglySorted ge_prob s → s !! j = Some (v, i) →
  length (filter (fun y => (v < y)%Q) s.*1) ≤ j.
Proof.
  intros Hs Hj. pose proof (lookup_lt_Some _ _ _ Hj) as Hlt.
  rewrite <- (take_drop_middle s j (v, i) Hj) in Hs |- *.
  rewrite fmap_app, fmap_cons, filter_app, length_app.
  rewrite filter_cons_False by apply Qlt_irrefl.
  assert (Hnil : filter (fun y => (v < y)%Q) (drop (S j) s).*1 = []).
  { apply elem_of_nil_inv. intros y [Hy Hin]%list_elem_of_filter.
    apply list_elem_of_fmap in Hin as ([y' i'] & -> & Hin).
    apply StronglySorted_app_1_r, StronglySorted_cons in Hs as [Hall _].
    rewrite Forall_forall in Hall. apply Hall in Hin.
    unfold ge_prob in Hin. apply Qle_bool_iff in Hin. simpl in *.
    exact (Qle_not_lt _ _ Hin Hy). }
  rewrite Hnil, Nat.add_0_r.
  pose proof (length_filter (fun y => (v < y)%Q) (take j s).*1) as Hle.
  rewrite length_fmap, length_take in Hle. lia.
Qed.

Lemma zip_seq_lookup (row : list Q) v i :
  (v, i) ∈ zip row (seq 0 (length row)) → row !! i = Some v.
Proof.
  intros Hin. apply elem_of_lookup_zip_with in Hin as (m & a & b & Heq & Ha & Hb).
  injection Heq as -> ->. apply lookup_seq in Hb as [-> _]. done.
Qed.

(** What [topk] returns: [k] values and their [k] indices; the index at
    position [j] holds the value at position [j], and at most [j] entries of
    the row are strictly larger. *)
Lemma topk_Ok row k vals idxs :
  topk row k = Ok (vals, idxs) →
  (0 ≤ k ≤ Z.of_nat (length row))%Z
  ∧ length vals = Z.to_nat k
  ∧ length idxs = Z.to_nat k
  ∧ ∀ j i, idxs !! j = Some i →
      ∃ v, vals !! j = Some v ∧ row !! i = Some v
           ∧ length (filter (fun y => (v < y)%Q) row) ≤ j.
Proof.
  unfold topk. case_decide as Hk; [|done]. intros [= <- <-].
  set (s := merge_sort ge_prob (zip row (seq 0 (length row)))).
  assert (Hperm : s ≡ₚ zip row (seq 0 (length row)))
    by apply merge_sort_Permutation.
  assert (Hlen : length s = length row).
  { rewrite Hperm, length_zip_with_l_eq; [done|]. by rewrite length_seq. }
  split; [done|]. rewrite !length_fmap, length_take.
  split; [lia|]. split; [lia|].
  intros j i Hi. rewrite list_lookup_fmap in Hi.
  destruct (take (Z.to_nat k) s !! j) as [[v i']|] eqn:Hj; [|done].
  injection Hi as ->. exists v.
  rewrite list_lookup_fmap, Hj. split; [done|].
  apply lookup_take_Some in Hj as [Hj Hjk].
  split.
  - apply zip_seq_lookup. rewrite <- Hperm. by eapply list_elem_of_lookup_2.
  - assert (Hrow : s.*1 ≡ₚ row).
    { rewrite Hperm. rewrite fst_zip; [done|]. by rewrite length_seq. }
    rewrite <- Hrow. eapply sorted_count_le; [|done].
    apply StronglySorted_merge_sort; apply _.
Qed.

Lemma topk_among_top row k vals idxs i :
  topk row k = Ok (vals, idxs) → i ∈ idxs →
  among_top (Z.to_nat k) row i.
Proof.
  intros Htop Hi. apply topk_Ok in Htop as (_ & _ & Hlen & Hall).
  apply list_elem_of_lookup in Hi as [j Hj].
  destruct (Hall _ _ Hj) as (v & _ & Hv & Hcount).
  exists v. split; [done|]. apply lookup_lt_Some in Hj. lia.
Qed.

Lemma topk_Raise row k :
  (k < 0 ∨ Z.of_nat (length row) < k)%Z → topk row k = Raise RuntimeError.
Proof. intros Hk. unfold topk. rewrite decide_False; [done | lia]. Qed.

End topk_facts.

(** ** [predict] *)

Section predict_facts.
Import Alphabet OneHot Sampler.
Context `{Backend}.

Lemma net_char2int_lookup (net : CharRNN) c i :
  net_char2int net !! c = Some i →
  i < length (chars net) ∧ chars net !! i = Some c.
Proof.
  intros Hi. apply char2int_sound in Hi. split; [|done].
  by eapply lookup_lt_Some.
Qed.

Lemma net_char2int_elem_of (net : CharRNN) c :
  c ∈ chars net ↔ is_Some (net_char2int net !! c).
Proof.
  split; [apply char2int_is_Some|]. intros [i Hi].
  apply net_char2int_lookup in Hi as [_ Hi]. by eapply list_elem_of_lookup_2.
Qed.

Lemma one_hot_encode_single i n :
  i < n →
  one_hot_encode [[i]] n = Ok [[ <[i := 1%Q]> (replicate n 0%Q) ]].
Proof.
  intros Hi. unfold one_hot_encode, one_hot_rows, one_hot_row.
  by rewrite decide_True.
Qed.

(** A character outside the network's dictionary stops [predict] at its
    first statement. *)
Lemma predict_KeyError (net : CharRNN) c h k w :
  net_char2int net !! c = None → predict net c h k w = (w, Raise KeyError).
Proof.
  intros Hc. unfold predict. run_M. by rewrite Hc.
Qed.

Lemma predict_None (net : CharRNN) c k w i :
  net_char2int net !! c = Some i →
  predict net c None k w = (w, Raise TypeError).
Proof.
  intros Hc. pose proof (net_char2int_lookup _ _ _ Hc) as [Hi _].
  unfold predict. run_M. rewrite Hc.
  by rewrite one_hot_encode_single.
Qed.

(** [predict] on a character of the network and a hidden state: one forward
    pass, the choice of the candidates, the draw, the decoding. *)
Lemma predict_Some (net : CharRNN) c h0 k w i :
  net_char2int net !! c = Some i →
  predict net c (Some h0) k w =
    let r := forward net (one_hot_input net i) h0 in
    match candidates net (softmax_dim1 r.1) k with
    | Raise e => (count_forward w, Raise e)
    | Ok (p, top_ch) =>
        match choice top_ch (array_div (squeeze p) (array_sum (squeeze p)))
                (count_forward w) with
        | (w2, Raise e) => (w2, Raise e)
        | (w2, Ok ix) =>
            match net_int2char net !! ix with
            | Some ch => (w2, Ok (ch, r.2))
            | None => (w2, Raise KeyError)
            end
        end
    end.
Proof.
  intros Hc. pose proof (net_char2int_lookup _ _ _ Hc) as [Hi _].
  unfold predict. run_M. rewrite Hc.
  rewrite one_hot_encode_single by done. simpl.
  destruct (forward net _ h0) as [out h1]. simpl.
  destruct (candidates net (softmax_dim1 out) k) as [[p top_ch]|e]; [|done].
  destruct (choice top_ch _ (count_forward w)) as [w2 [ix|e]]; [|done].
  by destruct (net_int2char net !! ix).
Qed.

(** [np.random.choice] on arrays without axes raises before it draws. *)
Lemma choice_Scalar (a : nat) (p : Q) w :
  choice (Scalar a) (Scalar p) w =
    (w, Raise (if decide (a = 0) then ValueError else TypeError)).
Proof.
  unfold choice, population, probabilities. run_M.
  by destruct (decide (a = 0)).
Qed.

(** With [top_k = 1] the candidates are a single value and a single index,
    those of a most probable entry, and [squeeze] leaves no axis on
    either. *)
Lemma candidates_top_1 (net : CharRNN) (row : list Q) :
  row ≠ [] →
  ∃ v a, candidates net row (Some 1%Z) = Ok ([v], Scalar a)
         ∧ squeeze [v] = Scalar v
         ∧ among_top 1 row a.
Proof.
  intros Hrow. unfold candidates.
  destruct (topk row 1) as [[vals idxs]|e] eqn:Htop.
  - pose proof Htop as (_ & Hv & Hi & Hall)%topk_Ok.
    destruct vals as [|v [|? ?]]; try done.
    destruct idxs as [|a [|? ?]]; try done.
    exists v, a. repeat split.
    apply (topk_among_top _ _ _ _ _ Htop), list_elem_of_here.
  - exfalso. unfold topk in Htop. case_decide as Hk; [done|].
    destruct row; [done|]. simpl in Hk. lia.
Qed.

(** [predict] with [top_k = 1] at the sampling step: the call of
    [np.random.choice] on the squeezed candidate and probability raises, and
    so does [predict]. *)
Lemma predict_top_1_sampling (net : CharRNN) c h0 w i :
  net_char2int net !! c = Some i →
  softmax_dim1 (forward net (one_hot_input net i) h0).1 ≠ [] →
  ∃ v a e,
    candidates net (softmax_dim1 (forward net (one_hot_input net i) h0).1)
      (Some 1%Z) = Ok ([v], Scalar a)
    ∧ among_top 1 (softmax_dim1 (forward net (one_hot_input net i) h0).1) a
    ∧ squeeze [v] = Scalar v
    ∧ e = (if decide (a = 0) then ValueError else TypeError)
    ∧ choice (Scalar a) (array_div (Scalar v) (array_sum (Scalar v)))
        (count_forward w) = (count_forward w, Raise e)
    ∧ predict net c (Some h0) (Some 1%Z) w = (count_forward w, Raise e).
Proof.
  intros Hc Hrow.
  destruct (candidates_top_1 net _ Hrow) as (v & a & Hcand & Hsq & Htop).
  exists v, a, (if decide (a = 0) then ValueError else TypeError).
  repeat (split; [done|]). split; [apply choice_Scalar|].
  rewrite (predict_Some _ _ _ _ _ _ Hc). cbv zeta.
  rewrite Hcand, Hsq. simpl array_div. by rewrite choice_Scalar.
Qed.


(** C10.  With [top_k = 1], [predict] never returns a character.  A call
    that reaches the sampling step (a character of the network, a hidden
    state, at least one score) fails there: after the forward pass the
    single candidate, a most probable character, and its probability have
    been squeezed to arrays without axes; [np.random.choice] raises on them
    ([ValueError] when the candidate is index 0, [TypeError] otherwise), and
    nothing is drawn. *)
Theorem predict_top_1_fails (net : CharRNN) (c : ascii) (h : option hidden)
    (w : world) :
  is_ok (predict net c h (Some 1%Z) w).2 = false
  ∧ ∀ i h0,
      net_char2int net !! c = Some i → h = Some h0 →
      softmax_dim1 (forward net (one_hot_input net i) h0).1 ≠ [] →
      ∃ v a e,
        candidates net
          (softmax_dim1 (forward net (one_hot_input net i) h0).1) (Some 1%Z)
          = Ok ([v], Scalar a)
        ∧ among_top 1
            (softmax_dim1 (forward net (one_hot_input net i) h0).1) a
        ∧ squeeze [v] = Scalar v
        ∧ e = (if decide (a = 0) then ValueError else TypeError)
        ∧ choice (Scalar a) (array_div (Scalar v) (array_sum (Scalar v)))
            (count_forward w) = (count_forward w, Raise e)
        ∧ predict net c h (Some 1%Z) w = (count_forward w, Raise e).
Proof.
  split.
  - destruct (net_char2int net !! c) as [i|] eqn:Hc.
    2:{ by rewrite (predict_KeyError _ _ _ _ _ Hc). }
    destruct h as [h0|].
    2:{ by rewrite (predict_None _ _ _ _ _ Hc). }
    destruct (decide (softmax_dim1 (forward net (one_hot_input net i) h0).1
                      = [])) as [Hnil | Hne].
    + rewrite (predict_Some _ _ _ _ _ _ Hc). cbv zeta. by rewrite Hnil.
    + destruct (predict_top_1_sampling net c h0 w i Hc Hne)
        as (? & ? & ? & _ & _ & _ & _ & _ & ->).
      done.
  - intros i h0 Hc -> Hne. by apply predict_top_1_sampling.
Qed.

End predict_facts.

(** ** The draw of [predict] *)

Section draw_facts.
Import Alphabet OneHot Sampler.
Context `{Backend}.

Lemma squeeze_Vector {A} (l : list A) : 2 ≤ length l → squeeze l = Vector l.
Proof. by destruct l as [|? [|? ?]]; simpl; try lia. Qed.

(** [p / p.sum()] for positive [p]: probabilities that sum to one. *)
Lemma normalized_ok (vals : list Q) :
  vals ≠ [] → Forall (fun x => (0 < x)%Q) vals →
  Forall (fun x => (0 <= x)%Q) (renormalize vals)
  ∧ (sum_Q (renormalize vals) == 1)%Q.
Proof.
  intros Hne Hpos. pose proof (sum_Q_pos vals Hne Hpos) as Hs.
  unfold renormalize. split.
  - apply Forall_fmap. eapply Forall_impl; [exact Hpos|]. intros x Hx. simpl.
    apply Qle_shift_div_l; [done|]. rewrite Qmult_0_l. by apply Qlt_le_weak.
  - rewrite sum_Q_div. field. intros Hz. rewrite Hz in Hs.
    exact (Qlt_irrefl _ Hs).
Qed.

(** [np.random.choice] on a population and probabilities that pass its
    checks: one draw, and the element at the position the draw selects. *)
Lemma choice_Vector (pop : list nat) (q : list Q) w :
  pop ≠ [] → length q = length pop →
  Forall (fun x => (0 <= x)%Q) q → (sum_Q q == 1)%Q →
  (0 <= drawn w)%Q → (drawn w < 1)%Q →
  ∃ x, pop !! searchsorted_right (normalized_cdf q) (drawn w) = Some x
       ∧ choice (Vector pop) (Vector q) w = (after_draw w, Ok x).
Proof.
  intros Hpop Hlen Hq Hsum Hu0 Hu1.
  assert (Hqne : q ≠ []) by (destruct q, pop; done).
  destruct (searchsorted_interval q (drawn w) Hqne Hq Hsum Hu0 Hu1)
    as (Hidx & _ & _).
  destruct (lookup_lt_is_Some_2 pop
              (searchsorted_right (normalized_cdf q) (drawn w))) as [x Hx];
    [lia|].
  exists x. split; [done|].
  unfold choice, population, probabilities. run_M.
  rewrite decide_False by done. rewrite decide_True.
  - by rewrite Hx.
  - split; [done|]. split.
    + eapply Forall_impl; [exact Hq|]. intros y Hy. by apply Qle_bool_iff.
    + by apply Qeq_bool_iff.
Qed.

(** The candidates [predict] draws from, when [top_k] is absent or at least
    two: as many probabilities as indices, at least two of each, the
    probabilities positive and the indices those of characters. *)
Lemma candidates_drawable (net : CharRNN) (row : list Q) (k : option Z) :
  length row = length (chars net) →
  Forall (fun q => (0 < q)%Q) row →
  top_k_drawable (length (chars net)) k →
  ∃ vals idxs,
    candidates net row k = Ok (vals, Vector idxs)
    ∧ 2 ≤ length idxs
    ∧ length vals = length idxs
    ∧ Forall (fun q => (0 < q)%Q) vals
    ∧ Forall (fun i => i < length (chars net)) idxs
    ∧ match k with
      | None => vals = row ∧ idxs = seq 0 (length (chars net))
      | Some k => topk row k = Ok (vals, idxs) ∧ length idxs = Z.to_nat k
      end.
Proof.
  intros Hlen Hpos Hk. destruct k as [k|]; simpl in Hk.
  - unfold candidates.
    destruct (topk row k) as [[vals idxs]|e] eqn:Htop.
    2:{ unfold topk in Htop. case_decide; [done | lia]. }
    pose proof Htop as (_ & Hv & Hi & Hall)%topk_Ok.
    exists vals, idxs. rewrite squeeze_Vector by lia.
    repeat split; try lia.
    + apply Forall_lookup. intros j v Hj.
      destruct (lookup_lt_is_Some_2 idxs j) as [i Hij].
      { apply lookup_lt_Some in Hj. lia. }
      destruct (Hall _ _ Hij) as (v' & Hv' & Hrow & _).
      assert (v' = v) as -> by congruence.
      exact (Forall_lookup_1 _ _ _ _ Hpos Hrow).
    + apply Forall_lookup. intros j i Hij.
      destruct (Hall _ _ Hij) as (v' & _ & Hrow & _).
      apply lookup_lt_Some in Hrow. lia.
  - exists row, (seq 0 (length (chars net))). simpl.
    rewrite length_seq. repeat split; try done; try lia.
    apply Forall_lookup. intros j i Hij. apply lookup_seq in Hij. lia.
Qed.

(** [predict] on a character of the network, with a hidden state and a
    [top_k] for which the draw is defined, returns: after one forward pass
    and one draw [u], it answers the character of the candidate at the
    position [j] whose interval of the renormalized cumulative probabilities
    holds [u]. *)
Lemma predict_draw (net : CharRNN) c h0 k w i :
  distribution_ok net → uniform_ok →
  net_char2int net !! c = Some i →
  top_k_drawable (length (chars net)) k →
  let r := forward net (one_hot_input net i) h0 in
  ∃ vals idxs,
    candidates net (softmax_dim1 r.1) k = Ok (vals, Vector idxs)
    ∧ length vals = length idxs
    ∧ let q := renormalize vals in
      let u := drawn (count_forward w) in
      let j := searchsorted_right (normalized_cdf q) u in
      ∃ ix ch,
        idxs !! j = Some ix
        ∧ chars net !! ix = Some ch
        ∧ (prefix_sum q j <= u)%Q
        ∧ (u < prefix_sum q (S j))%Q
        ∧ predict net c (Some h0) k w
          = (after_draw (count_forward w), Ok (ch, r.2)).
Proof.
  intros Hdist Hunif Hc Hk r.
  destruct (Hdist (one_hot_input net i) h0) as [Hlen Hpos].
  fold r in Hlen, Hpos.
  destruct (candidates_drawable net _ k Hlen Hpos Hk)
    as (vals & idxs & Hcand & Hidx2 & Hvi & Hvpos & Hiv & _).
  exists vals, idxs. split; [done|]. split; [done|]. cbv zeta.
  set (q := renormalize vals).
  set (u := drawn (count_forward w)).
  assert (Hvne : vals ≠ []) by (destruct vals; [simpl in *; lia | done]).
  destruct (normalized_ok vals Hvne Hvpos) as [Hq Hsum]. fold q in Hq, Hsum.
  destruct (Hunif (gen (count_forward w))) as [Hu0 Hu1].
  assert (Hqne : q ≠ []) by (unfold q; destruct vals; done).
  destruct (searchsorted_interval q u Hqne Hq Hsum Hu0 Hu1)
    as (Hj & Hlo & Hhi).
  destruct (choice_Vector idxs q (count_forward w)) as (ix & Hix & Hchoice);
    try done.
  { destruct idxs; [simpl in *; lia | done]. }
  { unfold q, renormalize. rewrite length_fmap. lia. }
  fold u in Hix.
  assert (Hlt : ix < length (chars net)).
  { exact (Forall_lookup_1 _ _ _ _ Hiv Hix). }
  destruct (lookup_lt_is_Some_2 (chars net) ix Hlt) as [ch Hch].
  exists ix, ch. repeat split; try done.
  rewrite (predict_Some _ _ _ _ _ _ Hc). cbv zeta. fold r. rewrite Hcand.
  rewrite squeeze_Vector by lia. simpl array_div. simpl array_sum.
  change ((fun x => (x / sum_Q vals)%Q) <$> vals) with q.
  rewrite Hchoice. unfold net_int2char. by rewrite int2char_lookup, Hch.
Qed.

End draw_facts.

(** ** Top-k sampling *)

Section top_k_facts.
Import Alphabet OneHot Sampler.
Context `{Backend}.



End top_k_facts.

(** ** Facts about the example network *)

Section demo_facts.
Import Sampler.

Lemma demo_distribution_ok : distribution_ok Demo.net.
Proof.
  intros x h. simpl. split; [done|]. by repeat constructor.
Qed.

Lemma demo_uniform_ok : uniform_ok.
Proof.
  intros g. simpl. unfold Qle, Qlt. simpl.
  pose proof (Nat.mod_upper_bound g 4). lia.
Qed.


End demo_facts.

(** ** [sample] *)

Section sample_facts.
Import Alphabet OneHot Sampler.
Context `{Backend}.

Lemma string_length_list (s : string) :
  String.length s = length (String.list_ascii_of_string s).
Proof. induction s as [|c s IH]; simpl; [done | by rewrite IH]. Qed.

Lemma string_of_list_length (l : list ascii) :
  String.length (String.string_of_list_ascii l) = length l.
Proof. induction l as [|c l IH]; simpl; [done | by rewrite IH]. Qed.

(** The generation loop appends exactly [size] characters. *)
Lemma generate_loop_Ok (net : CharRNN) k size cs h w w' r :
  generate_loop net k size cs h w = (w', Ok r) →
  ∃ gen, r = cs ++ gen ∧ length gen = size.
Proof.
  revert cs h w. induction size as [|n IH]; intros cs h w Hr; simpl in Hr.
  - injection Hr as _ <-. exists []. by rewrite app_nil_r.
  - unfold bind, lift in Hr. destruct (last_item cs) as [prev|e]; [|done].
    destruct (predict net prev (Some h) k w) as [w1 [[c1 h1]|e]]; [|done].
    apply IH in Hr as (gen & -> & Hlen). exists (c1 :: gen).
    rewrite <- app_assoc. simpl. by rewrite Hlen.
Qed.

(** What the priming loop ends with is what [predict] answered on the last
    character of the prime. *)
Lemma prime_loop_last (net : CharRNN) k l c0 h w w' r h' :
  prime_loop net k l c0 h w = (w', Ok (r, h')) →
  l ≠ [] →
  ∃ x hp wp c,
    last l = Some x ∧ r = Some c
    ∧ predict net x (Some hp) k wp = (w', Ok (c, h')).
Proof.
  revert c0 h w. induction l as [|x l IH]; intros c0 h w Hr Hne; [done|].
  simpl in Hr. unfold bind at 1 in Hr.
  destruct (predict net x (Some h) k w) as [w1 [[c1 h1]|e]] eqn:Hp; [|done].
  destruct l as [|y l].
  - simpl in Hr. injection Hr as <- <- <-. by exists x, h, w, c1.
  - destruct (IH _ _ _ Hr) as (x' & hp & wp & c & Hlast & -> & Hp'); [done|].
    exists x', hp, wp, c. by rewrite last_cons_cons.
Qed.

(** A failure of [predict] on the first character of the prime is the
    failure of [sample]. *)
Lemma sample_first_Raise (net : CharRNN) size c rest k w w1 e :
  predict net c (Some (init_hidden net 1)) k w = (w1, Raise e) →
  sample net size (String c rest) k w = (w1, Raise e).
Proof.
  intros Hp. unfold sample. simpl String.list_ascii_of_string.
  unfold bind at 1. simpl prime_loop. unfold bind at 1. by rewrite Hp.
Qed.

(** What [predict] returns on a character of the network is a character of
    the network. *)
Lemma predict_total (net : CharRNN) c h0 k w :
  distribution_ok net → uniform_ok → c ∈ chars net →
  top_k_drawable (length (chars net)) k →
  ∃ ch h1, ch ∈ chars net
           ∧ predict net c (Some h0) k w
             = (after_draw (count_forward w), Ok (ch, h1)).
Proof.
  intros Hdist Hunif Hc Hk. apply net_char2int_elem_of in Hc as [i Hi].
  destruct (predict_draw net c h0 k w i Hdist Hunif Hi Hk)
    as (vals & idxs & _ & _ & ix & ch & _ & Hch & _ & _ & Hp).
  exists ch, (forward net (one_hot_input net i) h0).2.
  split; [by eapply list_elem_of_lookup_2 | exact Hp].
Qed.

Lemma prime_loop_total (net : CharRNN) k l c0 h w :
  distribution_ok net → uniform_ok →
  top_k_drawable (length (chars net)) k →
  Forall (fun c => c ∈ chars net) l →
  ∃ w' r h', prime_loop net k l c0 h w = (w', Ok (r, h'))
             ∧ (l ≠ [] → ∃ ch, r = Some ch ∧ ch ∈ chars net).
Proof.
  intros Hdist Hunif Hk Hl. revert c0 h w.
  induction Hl as [|c l Hc Hl IH]; intros c0 h w.
  - exists w, c0, h. split; [done|]. by intros [].
  - destruct (predict_total net c h k w Hdist Hunif Hc Hk)
      as (ch & h1 & Hch & Hp).
    destruct (IH (Some ch) h1 (after_draw (count_forward w)))
      as (w' & r & h' & Hloop & Hr).
    exists w', r, h'. simpl. unfold bind at 1. rewrite Hp. split; [done|].
    intros _. destruct l as [|c' l'].
    + simpl in Hloop. injection Hloop as _ <- _. by exists ch.
    + by apply Hr.
Qed.

Lemma generate_loop_total (net : CharRNN) k size cs h w :
  distribution_ok net → uniform_ok →
  top_k_drawable (length (chars net)) k →
  (∃ c, last cs = Some c ∧ c ∈ chars net) →
  ∃ w' r, generate_loop net k size cs h w = (w', Ok r).
Proof.
  intros Hdist Hunif Hk. revert cs h w.
  induction size as [|n IH]; intros cs h w (c & Hlast & Hc); simpl.
  - by exists w, cs.
  - unfold bind at 1, lift, last_item. rewrite Hlast.
    destruct (predict_total net c h k w Hdist Hunif Hc Hk)
      as (ch & h1 & Hch & Hp).
    unfold bind at 1. rewrite Hp. apply IH. exists ch.
    by rewrite last_snoc.
Qed.

(** C1.  The string that [sample(net, size, prime, top_k)] returns holds the
    characters of [prime], then the one character predicted after the last
    character of [prime], then the [size] characters of the generation
    loop, in that order: its length is [len(prime) + 1 + size].  The call
    does return when [prime] is not empty and made of characters of the
    network, the network answers with a distribution over its characters,
    and [top_k] is one for which the draw is defined. *)
Theorem sample_length (net : CharRNN) (size : Z) (prime : string)
    (top_k : option Z) (w : world) :
  (0 ≤ size)%Z →
  (∀ w' s,
     sample net size prime top_k w = (w', Ok s) →
     Z.of_nat (String.length s)
       = (Z.of_nat (String.length prime) + 1 + size)%Z
     ∧ ∃ c h1 w1 gen x hp wp,
         prime_loop net top_k (String.list_ascii_of_string prime) None
           (init_hidden net 1) w = (w1, Ok (Some c, h1))
         ∧ last (String.list_ascii_of_string prime) = Some x
         ∧ predict net x (Some hp) top_k wp = (w1, Ok (c, h1))
         ∧ generate_loop net top_k (Z.to_nat size)
             (String.list_ascii_of_string prime ++ [c]) h1 w1
           = (w', Ok (String.list_ascii_of_string prime ++ c :: gen))
         ∧ length gen = Z.to_nat size
         ∧ s = String.string_of_list_ascii
                 (String.list_ascii_of_string prime ++ c :: gen))
  ∧ (prime ≠ ""%string →
     Forall (fun c => c ∈ chars net) (String.list_ascii_of_string prime) →
     distribution_ok net → uniform_ok →
     top_k_drawable (length (chars net)) top_k →
     ∃ w' s, sample net size prime top_k w = (w', Ok s)).
Proof.
  intros Hsize. split.
  - intros w' s Hs. unfold sample in Hs. unfold bind at 1 in Hs.
    destruct (prime_loop net top_k _ None (init_hidden net 1) w)
      as [w1 [[r h1]|e]] eqn:Hprime; [|done].
    unfold bind at 1, lift in Hs. destruct r as [c|]; [|done]. simpl in Hs.
    unfold bind at 1 in Hs.
    destruct (generate_loop net top_k (Z.to_nat size) _ h1 w1)
      as [w2 [cs|e]] eqn:Hgen; [|done].
    injection Hs as <- <-.
    pose proof Hgen as (gen & -> & Hlen)%generate_loop_Ok.
    rewrite <- app_assoc in Hgen |- *. simpl in Hgen |- *. split.
    + rewrite string_of_list_length, length_app, <- string_length_list.
      simpl. lia.
    + destruct (prime_loop_last _ _ _ _ _ _ _ _ _ Hprime)
        as (x & hp & wp & c' & Hlast & [= <-] & Hp).
      { intros Hnil. by rewrite Hnil in Hprime. }
      by exists c, h1, w1, gen, x, hp, wp.
  - intros Hne Hchars Hdist Hunif Hk.
    destruct (prime_loop_total net top_k (String.list_ascii_of_string prime)
                None (init_hidden net 1) w Hdist Hunif Hk Hchars)
      as (w1 & r & h1 & Hprime & Hr).
    destruct Hr as (c & -> & Hc).
    { intros Hnil. apply Hne.
      rewrite <- (String.string_of_list_ascii_of_string prime). by rewrite Hnil. }
    destruct (generate_loop_total net top_k (Z.to_nat size)
                (String.list_ascii_of_string prime ++ [c]) h1 w1
                Hdist Hunif Hk) as (w' & cs & Hgen).
    { exists c. by rewrite last_snoc. }
    exists w', (String.string_of_list_ascii cs).
    unfold sample. unfold bind at 1. rewrite Hprime.
    unfold bind at 1, lift. simpl. unfold bind at 1. by rewrite Hgen.
Qed.

(** C6, as the code has it.  On an empty [prime] the priming loop does not
    run, the local [char] is never assigned, and [chars.append(char)] fails
    with [UnboundLocalError]: [sample] produces no output, the network is
    not invoked and nothing is drawn. *)
Theorem sample_empty_prime (net : CharRNN) (size : Z) (top_k : option Z)
    (w : world) :
  sample net size "" top_k w = (w, Raise UnboundLocalError).
Proof.
  unfold sample. simpl String.list_ascii_of_string.
  unfold bind at 1. simpl prime_loop. unfold ret at 1.
  unfold bind at 1, lift, read_local. reflexivity.
Qed.


End sample_facts.

(** ** The statements on the example network *)

Section examples.
Import Alphabet OneHot Sampler.

Lemma sample_length_witness :
  sample Demo.net 5 "ab" None Demo.w0
    = (@Build_world Demo.backend 7 7, Ok "abbbcabb"%string)
  ∧ Z.of_nat (String.length "abbbcabb")
    = (Z.of_nat (String.length "ab") + 1 + 5)%Z
  ∧ ∃ w' s, sample Demo.net 5 "ab" None Demo.w0 = (w', Ok s).
Proof.
  assert (Hrun : sample Demo.net 5 "ab" None Demo.w0
                 = (@Build_world Demo.backend 7 7, Ok "abbbcabb"%string))
    by (vm_compute; reflexivity).
  destruct (sample_length Demo.net 5 "ab" None Demo.w0) as [Hret Htotal];
    [lia|].
  split; [exact Hrun|]. split.
  - exact (proj1 (Hret _ _ Hrun)).
  - apply Htotal.
    + discriminate.
    + simpl. repeat constructor.
    + exact demo_distribution_ok.
    + exact demo_uniform_ok.
    + simpl. lia.
Defined.


Lemma predict_top_1_fails_witness :
  ∃ v a e,
    candidates Demo.net [1 # 5; 1 # 2; 3 # 10]%Q (Some 1%Z)
      = Ok ([v], Scalar a)
    ∧ among_top 1 [1 # 5; 1 # 2; 3 # 10]%Q a
    ∧ squeeze [v] = Scalar v
    ∧ e = (if decide (a = 0) then ValueError else TypeError)
    ∧ choice (Scalar a) (array_div (Scalar v) (array_sum (Scalar v)))
        (count_forward Demo.w0) = (count_forward Demo.w0, Raise e)
    ∧ predict Demo.net "a" (Some 0) (Some 1%Z) Demo.w0
      = (count_forward Demo.w0, Raise e).
Proof.
  apply (proj2 (predict_top_1_fails Demo.net "a" (Some 0) Demo.w0) 0 0).
  - vm_compute. reflexivity.
  - reflexivity.
  - simpl. discriminate.
Defined.





(** C6 as stated fails: on an empty prime the failure is
    [UnboundLocalError], not [EmptyPrimeError]. *)
Lemma empty_prime_counterexample :
  (sample Demo.net 5 "" None Demo.w0).2 = Raise UnboundLocalError
  ∧ (sample Demo.net 5 "" None Demo.w0).2 ≠ Raise EmptyPrimeError.
Proof. vm_compute. split; [reflexivity | discriminate]. Qed.

(** C3 at [top_k = 1]: the network's most probable character is [b]
    (index 1, probability 1/2), and [predict] raises [TypeError] after the
    forward pass instead of returning it. *)
Theorem predict_top_1_example :
  topk [1 # 5; 1 # 2; 3 # 10]%Q 1 = Ok ([1 # 2]%Q, [1])
  ∧ predict Demo.net "a" (Some 0) (Some 1%Z) Demo.w0
    = (count_forward Demo.w0, Raise TypeError).
Proof. split; vm_compute; reflexivity. Qed.

End examples.

(** ** [one_hot_encode]: entries and bounds *)

Section one_hot_facts.
Import OneHot.










End one_hot_facts.

(** ** The dictionaries of a network whose tokens repeat a character *)

Section dictionary_facts.
Import Alphabet OneHot.

(** The index [char2int] holds for a character of the list is its last
    position. *)
Lemma fill_char2int_last d n l c i :
  c ∈ l → fill_char2int d n l !! c = Some i →
  n ≤ i ∧ l !! (i - n) = Some c ∧ ∀ j, i - n < j → l !! j ≠ Some c.
Proof.
  revert d n. induction l as [|x l IH]; intros d n Hc Hi;
    [by apply elem_of_nil in Hc|].
  unfold fill_char2int in *. simpl in Hi.
  destruct (decide (c ∈ l)) as [Hin | Hnin].
  - destruct (IH _ _ Hin Hi) as (Hle & Hl & Hlast).
    split; [lia|]. replace (i - n) with (S (i - S n)) by lia.
    split; [done|]. intros [|j] Hj; [lia|]. simpl. apply Hlast. lia.
  - apply elem_of_cons in Hc as [-> | Hc]; [|done].
    pose proof (fill_char2int_fresh (<[x:=n]> d) (S n) l x Hnin) as Hf.
    unfold fill_char2int in Hf. rewrite Hf, lookup_insert_eq in Hi.
    injection Hi as <-. rewrite Nat.sub_diag. split; [lia|].
    split; [done|]. intros [|j] Hj; [lia|]. simpl. intros Hx.
    apply Hnin. by eapply list_elem_of_lookup_2.
Qed.

(** For any tuple of tokens, repeated characters included, the
    dictionaries built in [CharRNN.__init__] (and from the text) decode
    what they encode: every character [c] of the tokens has an index [i]
    below [len(chars)] with [int2char[char2int[c]] == c], and [i] is the
    last position of [c].  In the other direction
    [char2int[int2char[i]] == i] holds exactly for the positions [i] after
    which the character does not occur again. *)
Theorem char2int_last_occurrence (chars : list ascii) :
  (∀ c, c ∈ chars →
     ∃ i, getitem (char2int chars) c = Ok i
          ∧ i < length chars
          ∧ getitem (int2char chars) i = Ok c
          ∧ ∀ j, i < j → chars !! j ≠ Some c)
  ∧ (∀ i c, chars !! i = Some c →
       getitem (int2char chars) i = Ok c
       ∧ (getitem (char2int chars) c = Ok i
          ↔ ∀ j, i < j → chars !! j ≠ Some c)).
Proof.
  assert (Hlast : ∀ c i, c ∈ chars → char2int chars !! c = Some i →
            chars !! i = Some c ∧ ∀ j, i < j → chars !! j ≠ Some c).
  { intros c i Hc Hi.
    change (char2int chars) with (fill_char2int ∅ 0 chars) in Hi.
    destruct (fill_char2int_last _ _ _ _ _ Hc Hi) as (_ & Hl & Hj).
    rewrite Nat.sub_0_r in Hl, Hj. done. }
  split.
  - intros c Hc. destruct (char2int_is_Some chars c Hc) as [i Hi].
    destruct (Hlast c i Hc Hi) as [Hl Hj]. exists i. unfold getitem.
    rewrite Hi, int2char_lookup, Hl. repeat split; try done.
    by eapply lookup_lt_Some.
  - intros i c Hi. unfold getitem. rewrite int2char_lookup, Hi.
    split; [done|].
    assert (Hc : c ∈ chars) by by eapply list_elem_of_lookup_2.
    destruct (char2int_is_Some chars c Hc) as [i' Hi']. rewrite Hi'.
    destruct (Hlast c i' Hc Hi') as [Hl' Hj']. split.
    + intros [= ->]. done.
    + intros Hj. f_equal.
      destruct (Nat.lt_trichotomy i i') as [Hlt | [Heq | Hgt]]; [|done|].
      * by destruct (Hj i' Hlt).
      * by destruct (Hj' i Hgt).
Qed.

Lemma char2int_last_occurrence_witness :
  ∃ i, getitem (char2int ["a"; "b"; "a"]%char) "a"%char = Ok i
       ∧ i < 3
       ∧ getitem (int2char ["a"; "b"; "a"]%char) i = Ok "a"%char
       ∧ ∀ j, i < j → ["a"; "b"; "a"]%char !! j ≠ Some "a"%char.
Proof.
  apply (proj1 (char2int_last_occurrence ["a"; "b"; "a"]%char) "a"%char).
  apply list_elem_of_here.
Defined.

End dictionary_facts.

(** ** What a call of [predict] changes *)

Section effects_facts.
Import Alphabet OneHot Sampler.
Context `{Backend}.

Lemma forward_calls_advance n w :
  forward_calls (advance n w) = forward_calls w + n.
Proof.
  unfold advance. induction n as [|n IH]; simpl; [lia|]. rewrite IH. lia.
Qed.

Lemma gen_advance n w : gen (advance n w) = gen_after n (gen w).
Proof.
  unfold advance, gen_after. induction n as [|n IH]; simpl; [done|].
  by rewrite IH.
Qed.

Lemma advance_S n w : advance (S n) w = advance n (step_world w).
Proof. unfold advance. apply Nat.iter_succ_r. Qed.

Lemma advance_add n m w : advance (n + m) w = advance m (advance n w).
Proof.
  revert w. induction n as [|n IH]; intros w; [done|].
  change (S n + m) with (S (n + m)). by rewrite !advance_S, IH.
Qed.

(** [np.random.choice] leaves the count of forward passes alone; when it
    returns it has drawn once, and what it returns is an element of the
    population. *)
Lemma choice_forward_calls a p w :
  forward_calls (choice a p w).1 = forward_calls w.
Proof.
  unfold choice, population, probabilities. run_M.
  destruct a as [n | l]; repeat case_decide; simpl; try done;
    destruct p as [x | q]; simpl; try done; case_decide; simpl; try done;
    by destruct (_ !! _).
Qed.

Lemma choice_Ok a p w w' x :
  choice a p w = (w', Ok x) →
  w' = after_draw w ∧ ∃ pop, population a = Ok pop ∧ x ∈ pop.
Proof.
  unfold choice. run_M. destruct (population a) as [pop|e]; [|done].
  destruct (probabilities (length pop) p) as [q|e]; [|done].
  destruct (pop !! _) as [y|] eqn:Hy; [|done]. intros [= <- <-].
  split; [done|]. exists pop. split; [done|].
  by eapply list_elem_of_lookup_2.
Qed.

(** With a uniform draw below one, [np.random.choice] raises only before it
    draws. *)
Lemma choice_Raise a p w w' e :
  (0 <= drawn w)%Q → (drawn w < 1)%Q →
  choice a p w = (w', Raise e) → w' = w.
Proof.
  intros Hu0 Hu1. unfold choice. run_M.
  destruct (population a) as [pop|e0] eqn:Hpop; [|by intros [= <- _]].
  destruct (probabilities (length pop) p) as [q|e1] eqn:Hq;
    [|by intros [= <- _]].
  destruct (pop !! _) as [y|] eqn:Hy; [done|]. exfalso.
  unfold probabilities in Hq. destruct p as [x | q']; [done|].
  case_decide as Hchk; [|done]. injection Hq as <-.
  destruct Hchk as (Hlen & Hnn & Hsum).
  assert (Hpne : pop ≠ []).
  { unfold population in Hpop. destruct a as [n | l]; case_decide;
      try done; injection Hpop as <-; [by destruct n | done]. }
  assert (Hqne : q' ≠ []) by (destruct q', pop; done).
  assert (Hq0 : Forall (fun x => (0 <= x)%Q) q').
  { eapply Forall_impl; [exact Hnn|]. intros z Hz. by apply Qle_bool_iff. }
  apply Qeq_bool_iff in Hsum.
  destruct (searchsorted_interval q' (drawn w) Hqne Hq0 Hsum Hu0 Hu1)
    as (Hidx & _ & _).
  apply lookup_ge_None in Hy. lia.
Qed.

(** What is known of a call of [predict] that returned. *)
Lemma predict_Ok_inv (net : CharRNN) (c : ascii) (h : option hidden)
    (top_k : option Z) (w w' : world) (ch : ascii) (h' : hidden) :
  predict net c h top_k w = (w', Ok (ch, h')) →
  ∃ i h0,
    h = Some h0
    ∧ net_char2int net !! c = Some i
    ∧ w' = step_world w
    ∧ h' = (forward net (one_hot_input net i) h0).2
    ∧ ch ∈ chars net.
Proof.
  intros Hp. destruct (net_char2int net !! c) as [i|] eqn:Hc.
  2:{ by rewrite (predict_KeyError _ _ _ _ _ Hc) in Hp. }
  destruct h as [h0|].
  2:{ by rewrite (predict_None _ _ _ _ _ Hc) in Hp. }
  exists i, h0. rewrite (predict_Some _ _ _ _ _ _ Hc) in Hp. cbv zeta in Hp.
  destruct (candidates net _ top_k) as [[p top_ch]|e]; [|done].
  destruct (choice top_ch _ (count_forward w)) as [w2 [ix|e]] eqn:Hch;
    [|done].
  apply choice_Ok in Hch as [-> _].
  destruct (net_int2char net !! ix) as [ch'|] eqn:Hix; [|done].
  injection Hp as <- <- <-. repeat split; try done.
  unfold net_int2char in Hix. rewrite int2char_lookup in Hix.
  by eapply list_elem_of_lookup_2.
Qed.

(** A call of [predict] that returns has run exactly one forward pass and
    one draw; it was given a hidden state and a character of the network;
    it returns a character of the network and the hidden state the forward
    pass returned. *)
Theorem predict_Ok (net : CharRNN) (c : ascii) (h : option hidden)
    (top_k : option Z) (w w' : world) (ch : ascii) (h' : hidden) :
  predict net c h top_k w = (w', Ok (ch, h')) →
  ∃ i h0,
    h = Some h0
    ∧ net_char2int net !! c = Some i
    ∧ w' = step_world w
    ∧ h' = (forward net (one_hot_input net i) h0).2
    ∧ ch ∈ chars net.
Proof. apply predict_Ok_inv. Qed.

(** [predict] fails with [KeyError] and an unchanged state exactly on the
    characters that are not characters of the network, whatever the hidden
    state (also [None]) and [top_k]. *)
Theorem predict_unknown_character (net : CharRNN) (c : ascii)
    (h : option hidden) (top_k : option Z) (w : world) :
  predict net c h top_k w = (w, Raise KeyError) ↔ c ∉ chars net.
Proof.
  split.
  - intros Hp Hc. apply net_char2int_elem_of in Hc as [i Hi].
    destruct h as [h0|].
    2:{ by rewrite (predict_None _ _ _ _ _ Hi) in Hp. }
    rewrite (predict_Some _ _ _ _ _ _ Hi) in Hp. cbv zeta in Hp.
    assert (Hfc : ∀ w2 : world, forward_calls w2 = S (forward_calls w) →
              w2 ≠ w).
    { intros w2 Hw2 ->. lia. }
    destruct (candidates net _ top_k) as [[p top_ch]|e].
    2:{ injection Hp as Hw _. by apply (Hfc (count_forward w)). }
    pose proof (choice_forward_calls top_ch
                  (array_div (squeeze p) (array_sum (squeeze p)))
                  (count_forward w)) as Hcf.
    destruct (choice top_ch _ (count_forward w)) as [w2 [ix|e]];
      simpl in Hcf.
    + destruct (net_int2char net !! ix); injection Hp as Hw;
        by apply (Hfc w2).
    + injection Hp as Hw _. by apply (Hfc w2).
  - intros Hc. apply predict_KeyError.
    destruct (net_char2int net !! c) eqn:Hi; [|done].
    exfalso. apply Hc, net_char2int_elem_of. by eexists.
Qed.

End effects_facts.

(** ** When [predict] and [sample] return *)

Section returning_facts.
Import Alphabet OneHot Sampler.
Context `{Backend}.

(** The index [np.random.choice] returns at the sampling step of [predict]
    is an index of the network, when the scores have one entry for each
    character. *)
Lemma predict_index_bound (net : CharRNN) (row : list Q) k p top_ch w w2 ix :
  length row = length (chars net) →
  candidates net row k = Ok (p, top_ch) →
  choice top_ch (array_div (squeeze p) (array_sum (squeeze p))) w
    = (w2, Ok ix) →
  ix < length (chars net).
Proof.
  intros Hlen Hcand Hch.
  destruct (choice_Ok _ _ _ _ _ Hch) as [_ (pop & Hpop & Hix)].
  unfold candidates in Hcand. destruct k as [k|].
  - destruct (topk row k) as [[vals idxs]|e] eqn:Htopk; [|done].
    injection Hcand as <- <-.
    apply topk_Ok in Htopk as (_ & Hlv & Hli & Hsel).
    destruct idxs as [|a [|b idxs]].
    + done.
    + destruct vals as [|v [|v' vals]]; simpl in Hlv, Hli; try lia.
      simpl in Hch. by rewrite choice_Scalar in Hch.
    + simpl in Hpop. injection Hpop as <-.
      apply list_elem_of_lookup_1 in Hix as [j Hj].
      destruct (Hsel j ix Hj) as (v & _ & Hrow & _).
      apply lookup_lt_Some in Hrow. lia.
  - injection Hcand as <- <-. unfold population in Hpop.
    case_decide; [done|]. injection Hpop as <-.
    apply elem_of_seq in Hix. lia.
Qed.

(** A failure of [predict] after the forward pass happens before anything
    is drawn. *)
Lemma predict_Raise_world (net : CharRNN) c h0 k w i w' e :
  (∀ x h, length (softmax_dim1 (forward net x h).1) = length (chars net)) →
  uniform_ok →
  net_char2int net !! c = Some i →
  predict net c (Some h0) k w = (w', Raise e) →
  w' = count_forward w.
Proof.
  intros Hlen Hunif Hi Hp. rewrite (predict_Some _ _ _ _ _ _ Hi) in Hp.
  cbv zeta in Hp. specialize (Hlen (one_hot_input net i) h0).
  destruct (candidates net _ k) as [[p top_ch]|e0] eqn:Hcand.
  2:{ by injection Hp as <- _. }
  destruct (choice top_ch _ (count_forward w)) as [w2 [ix|e1]] eqn:Hch.
  - exfalso. pose proof (predict_index_bound _ _ _ _ _ _ _ _ Hlen Hcand Hch)
      as Hix.
    destruct (net_int2char net !! ix) as [ch|] eqn:Hch'; [done|].
    unfold net_int2char in Hch'. rewrite int2char_lookup in Hch'.
    apply lookup_ge_None in Hch'. lia.
  - injection Hp as <- _. eapply choice_Raise; [..|exact Hch];
      apply (Hunif (gen w)).
Qed.

(** On a value of [top_k] for which the draw is not defined, or with a
    single character, [predict] does not return. *)
Lemma predict_not_drawable (net : CharRNN) c h k w :
  (∀ x h, length (softmax_dim1 (forward net x h).1) = length (chars net)) →
  ¬ top_k_drawable (length (chars net)) k →
  is_ok (predict net c h k w).2 = false.
Proof.
  intros Hlen Hk. destruct (net_char2int net !! c) as [i|] eqn:Hc.
  2:{ by rewrite (predict_KeyError _ _ _ _ _ Hc). }
  destruct h as [h0|].
  2:{ by rewrite (predict_None _ _ _ _ _ Hc). }
  pose proof (net_char2int_lookup _ _ _ Hc) as [Hi _].
  specialize (Hlen (one_hot_input net i) h0).
  destruct k as [k|]; simpl in Hk.
  - destruct (decide (k = 1%Z)) as [-> | Hk1].
    { destruct (predict_top_1_sampling net c h0 w i Hc)
        as (? & ? & ? & _ & _ & _ & _ & _ & ->); [|done].
      intros Hnil. rewrite Hnil in Hlen. simpl in Hlen. lia. }
    rewrite (predict_Some _ _ _ _ _ _ Hc). cbv zeta.
    destruct (decide (k = 0%Z)) as [-> | Hk0].
    + unfold candidates, topk. rewrite decide_True by lia. simpl.
      unfold choice, population. run_M. done.
    + unfold candidates. rewrite topk_Raise by lia. done.
  - rewrite (predict_Some _ _ _ _ _ _ Hc). cbv zeta. unfold candidates.
    destruct (softmax_dim1 _) as [|v [|v' row]]; simpl in Hlen; try lia.
    rewrite <- Hlen. simpl. unfold choice, population, probabilities.
    run_M. done.
Qed.

(** [predict] with [top_k = 1] does not return. *)
Lemma predict_top_1_not_ok (net : CharRNN) c h w :
  is_ok (predict net c h (Some 1%Z) w).2 = false.
Proof.
  destruct (net_char2int net !! c) as [i|] eqn:Hc.
  2:{ by rewrite (predict_KeyError _ _ _ _ _ Hc). }
  destruct h as [h0|].
  2:{ by rewrite (predict_None _ _ _ _ _ Hc). }
  destruct (decide (softmax_dim1 (forward net (one_hot_input net i) h0).1
                    = [])) as [Hnil | Hne].
  - rewrite (predict_Some _ _ _ _ _ _ Hc). cbv zeta. by rewrite Hnil.
  - destruct (predict_top_1_sampling net c h0 w i Hc Hne)
      as (? & ? & ? & _ & _ & _ & _ & _ & ->).
    done.
Qed.

(** A call of [predict] that fails has drawn nothing; it has run the
    forward pass exactly when it was given a character of the network and a
    hidden state. *)
Theorem predict_Raise_no_draw (net : CharRNN) (c : ascii)
    (h : option hidden) (top_k : option Z) (w w' : world) (e : exn) :
  (∀ x h, length (softmax_dim1 (forward net x h).1) = length (chars net)) →
  uniform_ok →
  predict net c h top_k w = (w', Raise e) →
  gen w' = gen w
  ∧ forward_calls w'
    = forward_calls w + (if decide (c ∈ chars net ∧ is_Some h) then 1 else 0).
Proof.
  intros Hlen Hunif Hp.
  destruct (net_char2int net !! c) as [i|] eqn:Hc.
  2:{ rewrite (predict_KeyError _ _ _ _ _ Hc) in Hp. injection Hp as <- _.
      split; [done|]. rewrite decide_False; [lia|].
      intros [Hin _]. apply net_char2int_elem_of in Hin as [i Hi].
      congruence. }
  destruct h as [h0|].
  2:{ rewrite (predict_None _ _ _ _ _ Hc) in Hp. injection Hp as <- _.
      split; [done|]. rewrite decide_False; [lia|].
      by intros [_ [? ?]]. }
  rewrite (predict_Raise_world _ _ _ _ _ _ _ _ Hlen Hunif Hc Hp).
  split; [done|]. rewrite decide_True; [simpl; lia|].
  split; [|by eexists]. apply net_char2int_elem_of. by eexists.
Qed.

(** With a network that answers with a positive distribution over its
    characters, [predict] returns exactly when it is given a character of
    the network, a hidden state, and no [top_k] or one that is at least 2
    and at most the number of characters (which must then be at least
    2). *)
Theorem predict_returns_iff (net : CharRNN) (c : ascii) (h : option hidden)
    (top_k : option Z) (w : world) :
  distribution_ok net → uniform_ok →
  is_ok (predict net c h top_k w).2 = true
  ↔ c ∈ chars net ∧ is_Some h ∧ top_k_drawable (length (chars net)) top_k.
Proof.
  intros Hdist Hunif. split.
  - intros Hok.
    destruct (predict net c h top_k w) as [w' [[ch h']|e]] eqn:Hp; [|done].
    destruct (predict_Ok_inv _ _ _ _ _ _ _ _ Hp) as (i & h0 & -> & Hi & _).
    split; [apply net_char2int_elem_of; by eexists|]. split; [by eexists|].
    destruct top_k as [k|]; simpl.
    + destruct (decide (2 ≤ k ≤ Z.of_nat (length (chars net)))%Z)
        as [Hk | Hk]; [done|].
      pose proof (predict_not_drawable net c (Some h0) (Some k) w
                    (fun x h => proj1 (Hdist x h)) Hk) as Hno.
      rewrite Hp in Hno. done.
    + destruct (decide (2 ≤ length (chars net))) as [Hk | Hk]; [done|].
      pose proof (predict_not_drawable net c (Some h0) None w
                    (fun x h => proj1 (Hdist x h)) Hk) as Hno.
      rewrite Hp in Hno. done.
  - intros (Hc & [h0 ->] & Hk).
    destruct (predict_total net c h0 top_k w Hdist Hunif Hc Hk)
      as (ch & h1 & _ & ->).
    done.
Qed.

End returning_facts.

(** ** What a call of [sample] does *)

Section sample_effects_facts.
Import Alphabet OneHot Sampler.
Context `{Backend}.

(** A call of [sample] that returns went through both loops. *)
Lemma sample_Ok_inv (net : CharRNN) size prime k w w' s :
  sample net size prime k w = (w', Ok s) →
  ∃ c h1 w1 cs,
    prime_loop net k (String.list_ascii_of_string prime) None
      (init_hidden net 1) w = (w1, Ok (Some c, h1))
    ∧ generate_loop net k (Z.to_nat size)
        (String.list_ascii_of_string prime ++ [c]) h1 w1 = (w', Ok cs)
    ∧ s = String.string_of_list_ascii cs.
Proof.
  intros Hs. unfold sample in Hs. unfold bind at 1 in Hs.
  destruct (prime_loop net k _ None (init_hidden net 1) w)
    as [w1 [[r h1]|e]] eqn:Hprime; [|done].
  unfold bind at 1, lift in Hs. destruct r as [c|]; [|done]. simpl in Hs.
  unfold bind at 1 in Hs.
  destruct (generate_loop net k (Z.to_nat size) _ h1 w1)
    as [w2 [cs|e]] eqn:Hgen; [|done].
  injection Hs as <- <-. by exists c, h1, w1, cs.
Qed.

Lemma sample_Ok_intro (net : CharRNN) size prime k w w1 w' c h1 cs :
  prime_loop net k (String.list_ascii_of_string prime) None
    (init_hidden net 1) w = (w1, Ok (Some c, h1)) →
  generate_loop net k (Z.to_nat size)
    (String.list_ascii_of_string prime ++ [c]) h1 w1 = (w', Ok cs) →
  sample net size prime k w = (w', Ok (String.string_of_list_ascii cs)).
Proof.
  intros Hprime Hgen. unfold sample. unfold bind at 1. rewrite Hprime.
  unfold bind at 1, lift. simpl. unfold bind at 1. by rewrite Hgen.
Qed.

(** The priming loop, when it returns: one step of the world for each
    character, every character one of the network. *)
Lemma prime_loop_Ok (net : CharRNN) k l c0 h w w' r h' :
  prime_loop net k l c0 h w = (w', Ok (r, h')) →
  w' = advance (length l) w
  ∧ Forall (fun c => c ∈ chars net) l
  ∧ (l = [] → r = c0)
  ∧ (l ≠ [] → ∃ c, r = Some c ∧ c ∈ chars net).
Proof.
  revert c0 h w. induction l as [|x l IH]; intros c0 h w Hr.
  - simpl in Hr. injection Hr as <- <- <-. by repeat split.
  - simpl in Hr. unfold bind at 1 in Hr.
    destruct (predict net x (Some h) k w) as [w1 [[c1 h1]|e]] eqn:Hp;
      [|done].
    destruct (predict_Ok_inv _ _ _ _ _ _ _ _ Hp)
      as (i & h0 & _ & Hi & -> & _ & Hc1).
    destruct (IH _ _ _ Hr) as (-> & Hl & Hnil & Hne).
    split; [by rewrite <- advance_S|]. split.
    { constructor; [|done]. apply net_char2int_elem_of. by eexists. }
    split; [done|]. intros _. destruct l as [|y l].
    + exists c1. by rewrite Hnil.
    + by apply Hne.
Qed.

(** The generation loop, when it returns: one step of the world for each
    of the [size] characters it appends, each a character of the network. *)
Lemma generate_loop_effects (net : CharRNN) k size cs h w w' r :
  generate_loop net k size cs h w = (w', Ok r) →
  w' = advance size w
  ∧ ∃ gen, r = cs ++ gen ∧ length gen = size
           ∧ Forall (fun c => c ∈ chars net) gen.
Proof.
  revert cs h w. induction size as [|n IH]; intros cs h w Hr; simpl in Hr.
  - injection Hr as <- <-. split; [done|]. exists [].
    by rewrite app_nil_r.
  - unfold bind, lift in Hr. destruct (last_item cs) as [prev|e]; [|done].
    destruct (predict net prev (Some h) k w) as [w1 [[c1 h1]|e]] eqn:Hp;
      [|done].
    destruct (predict_Ok_inv _ _ _ _ _ _ _ _ Hp)
      as (i & h0 & _ & _ & -> & _ & Hc1).
    apply IH in Hr as (-> & gen & -> & Hlen & Hgen).
    split; [by rewrite <- advance_S|]. exists (c1 :: gen).
    rewrite <- app_assoc. simpl. rewrite Hlen. repeat split; try done.
    by constructor.
Qed.

(** Asking for fewer characters gives a prefix. *)
Lemma generate_loop_prefix (net : CharRNN) k n m cs h w w2 r2 :
  n ≤ m →
  generate_loop net k m cs h w = (w2, Ok r2) →
  ∃ w1 r1,
    generate_loop net k n cs h w = (w1, Ok r1)
    ∧ r1 `prefix_of` r2
    ∧ w2 = advance (m - n) w1.
Proof.
  revert m cs h w. induction n as [|n IH]; intros m cs h w Hnm Hr.
  - exists w, cs. split; [done|].
    apply generate_loop_effects in Hr as (-> & gen & -> & _ & _).
    split; [by exists gen|]. by rewrite Nat.sub_0_r.
  - destruct m as [|m]; [lia|]. simpl in Hr |- *. unfold bind, lift in *.
    destruct (last_item cs) as [prev|e]; [|done].
    destruct (predict net prev (Some h) k w) as [w1 [[c1 h1]|e]]; [|done].
    apply IH; [lia | done].
Qed.

(** The priming loop stops at the first character that is not one of the
    network. *)
Lemma prime_loop_unknown (net : CharRNN) k known c rest c0 h w :
  distribution_ok net → uniform_ok →
  top_k_drawable (length (chars net)) k →
  Forall (fun c => c ∈ chars net) known → c ∉ chars net →
  prime_loop net k (known ++ c :: rest) c0 h w
    = (advance (length known) w, Raise KeyError).
Proof.
  intros Hdist Hunif Hk Hknown Hc. revert c0 h w.
  induction Hknown as [|x known Hx Hknown IH]; intros c0 h w.
  - simpl. unfold bind at 1. rewrite predict_KeyError; [done|].
    destruct (net_char2int net !! c) eqn:Hi; [|done].
    exfalso. apply Hc, net_char2int_elem_of. by eexists.
  - destruct (predict_total net x h k w Hdist Hunif Hx Hk)
      as (ch & h1 & _ & Hp).
    simpl app. simpl prime_loop. unfold bind at 1. rewrite Hp.
    rewrite IH. simpl length. by rewrite advance_S.
Qed.

(** When [predict] never returns, neither does [sample]. *)
Lemma sample_not_ok (net : CharRNN) size prime k w :
  (∀ c h w, is_ok (predict net c h k w).2 = false) →
  is_ok (sample net size prime k w).2 = false.
Proof.
  intros Hp. destruct prime as [|c rest]; [done|].
  specialize (Hp c (Some (init_hidden net 1)) w).
  destruct (predict net c (Some (init_hidden net 1)) k w)
    as [w1 [[ch h1]|e]] eqn:Hpc; [done|].
  by rewrite (sample_first_Raise _ _ _ _ _ _ _ _ Hpc).
Qed.

(** A call of [sample] that returns has run one forward pass and drawn
    once for each character of [prime] and for each of the [size]
    characters it generated (none for a negative [size]); the global
    generator is left in the state after that many draws. *)
Theorem sample_effects (net : CharRNN) (size : Z) (prime : string)
    (top_k : option Z) (w w' : world) (s : string) :
  sample net size prime top_k w = (w', Ok s) →
  w' = advance (String.length prime + Z.to_nat size) w
  ∧ forward_calls w'
    = forward_calls w + (String.length prime + Z.to_nat size)
  ∧ gen w' = gen_after (String.length prime + Z.to_nat size) (gen w).
Proof.
  intros Hs.
  destruct (sample_Ok_inv _ _ _ _ _ _ _ Hs)
    as (c & h1 & w1 & cs & Hprime & Hgen & _).
  apply prime_loop_Ok in Hprime as (-> & _).
  apply generate_loop_effects in Hgen as (-> & _).
  rewrite <- advance_add, <- string_length_list.
  by rewrite forward_calls_advance, gen_advance.
Qed.

(** The string a call of [sample] returns is [prime] followed by
    [1 + max(size, 0)] characters, and every character of it, those of
    [prime] included, is a character of the network. *)
Theorem sample_vocabulary (net : CharRNN) (size : Z) (prime : string)
    (top_k : option Z) (w w' : world) (s : string) :
  sample net size prime top_k w = (w', Ok s) →
  ∃ gen,
    String.list_ascii_of_string s = String.list_ascii_of_string prime ++ gen
    ∧ length gen = S (Z.to_nat size)
    ∧ Z.of_nat (String.length s)
      = (Z.of_nat (String.length prime) + 1 + Z.max 0 size)%Z
    ∧ Forall (fun c => c ∈ chars net) (String.list_ascii_of_string s).
Proof.
  intros Hs.
  destruct (sample_Ok_inv _ _ _ _ _ _ _ Hs)
    as (c & h1 & w1 & cs & Hprime & Hgen & ->).
  apply prime_loop_Ok in Hprime as (_ & Hin & Hnil & Hne).
  apply generate_loop_effects in Hgen as (_ & gen & -> & Hlen & Hgen).
  assert (Hc : c ∈ chars net).
  { destruct (String.list_ascii_of_string prime) as [|x l] eqn:Hl.
    - by specialize (Hnil eq_refl).
    - destruct Hne as (c' & [= <-] & Hc'); done. }
  rewrite String.list_ascii_of_string_of_list_ascii.
  exists (c :: gen). rewrite <- app_assoc. split; [done|].
  split; [simpl; by rewrite Hlen|]. split.
  - rewrite string_of_list_length, string_length_list, !length_app.
    simpl. lia.
  - rewrite !Forall_app. repeat split; try done. by repeat constructor.
Qed.

(** On a [prime] whose first character outside the network's characters
    comes after [n] characters of the network, [sample] fails with
    [KeyError] after [n] forward passes and [n] draws. *)
Theorem sample_unknown_prime_char (net : CharRNN) (size : Z)
    (prime : string) (top_k : option Z) (w : world)
    (known : list ascii) (c : ascii) (rest : list ascii) :
  distribution_ok net → uniform_ok →
  top_k_drawable (length (chars net)) top_k →
  String.list_ascii_of_string prime = known ++ c :: rest →
  Forall (fun c => c ∈ chars net) known → c ∉ chars net →
  sample net size prime top_k w
    = (advance (length known) w, Raise KeyError).
Proof.
  intros Hdist Hunif Hk Hprime Hknown Hc. unfold sample.
  unfold bind at 1. rewrite Hprime.
  by rewrite (prime_loop_unknown _ _ _ _ _ _ _ _ Hdist Hunif Hk Hknown Hc).
Qed.

(** With a network that answers with a positive distribution over its
    characters, [sample] returns exactly when [prime] is not empty and made
    of characters of the network and [top_k] is absent or between 2 and the
    number of characters; [size] plays no part. *)
Theorem sample_returns_iff (net : CharRNN) (size : Z) (prime : string)
    (top_k : option Z) (w : world) :
  distribution_ok net → uniform_ok →
  is_ok (sample net size prime top_k w).2 = true
  ↔ prime ≠ ""%string
    ∧ Forall (fun c => c ∈ chars net) (String.list_ascii_of_string prime)
    ∧ top_k_drawable (length (chars net)) top_k.
Proof.
  intros Hdist Hunif. split.
  - intros Hok.
    destruct (sample net size prime top_k w) as [w' [s|e]] eqn:Hs; [|done].
    destruct (sample_Ok_inv _ _ _ _ _ _ _ Hs)
      as (c & h1 & w1 & cs & Hprime & _ & _).
    pose proof (prime_loop_Ok _ _ _ _ _ _ _ _ _ Hprime)
      as (_ & Hin & Hnil & _).
    destruct prime as [|x rest]; [by specialize (Hnil eq_refl)|].
    split; [done|]. split; [done|].
    simpl in Hprime. unfold bind at 1 in Hprime.
    destruct (predict net x (Some (init_hidden net 1)) top_k w)
      as [w2 [[c2 h2]|e]] eqn:Hp; [|done].
    destruct top_k as [k|]; simpl.
    + destruct (decide (2 ≤ k ≤ Z.of_nat (length (chars net)))%Z)
        as [Hk | Hk]; [done|].
      pose proof (predict_not_drawable net x (Some (init_hidden net 1))
                    (Some k) w (fun x h => proj1 (Hdist x h)) Hk) as Hno.
      rewrite Hp in Hno. done.
    + destruct (decide (2 ≤ length (chars net))) as [Hk | Hk]; [done|].
      pose proof (predict_not_drawable net x (Some (init_hidden net 1))
                    None w (fun x h => proj1 (Hdist x h)) Hk) as Hno.
      rewrite Hp in Hno. done.
  - intros (Hne & Hin & Hk).
    destruct (prime_loop_total net top_k _ None (init_hidden net 1) w
                Hdist Hunif Hk Hin) as (w1 & r & h1 & Hprime & Hr).
    destruct Hr as (c & -> & Hc).
    { destruct prime; [done | discriminate]. }
    destruct (generate_loop_total net top_k (Z.to_nat size)
                (String.list_ascii_of_string prime ++ [c]) h1 w1
                Hdist Hunif Hk) as (w' & cs & Hgen).
    { exists c. by rewrite last_snoc. }
    by rewrite (sample_Ok_intro _ _ _ _ _ _ _ _ _ _ Hprime Hgen).
Qed.

(** Asking [sample] for fewer characters, from the same state, gives a
    prefix: when the call with [size'] returns, so does the call with any
    smaller [size], its string is a prefix of the longer one, and the longer
    call leaves the state the shorter one leaves after the steps of the
    characters in between. *)
Theorem sample_prefix_extension (net : CharRNN) (size size' : Z)
    (prime : string) (top_k : option Z) (w w2 : world) (s2 : string) :
  (size ≤ size')%Z →
  sample net size' prime top_k w = (w2, Ok s2) →
  ∃ w1 s1,
    sample net size prime top_k w = (w1, Ok s1)
    ∧ String.list_ascii_of_string s1
      `prefix_of` String.list_ascii_of_string s2
    ∧ w2 = advance (Z.to_nat size' - Z.to_nat size) w1.
Proof.
  intros Hle Hs.
  destruct (sample_Ok_inv _ _ _ _ _ _ _ Hs)
    as (c & h1 & w0 & cs & Hprime & Hgen & ->).
  assert (Hnat : Z.to_nat size ≤ Z.to_nat size') by lia.
  destruct (generate_loop_prefix _ _ _ _ _ _ _ _ _ Hnat Hgen)
    as (w1 & r1 & Hgen1 & Hpre & Hw).
  exists w1, (String.string_of_list_ascii r1).
  rewrite !String.list_ascii_of_string_of_list_ascii.
  split; [|done]. by apply (sample_Ok_intro _ _ _ _ _ _ _ _ _ _ Hprime Hgen1).
Qed.

(** [sample] with [top_k = 1] never returns, whatever the network, the
    prime and the size. *)
Theorem sample_top_1_fails (net : CharRNN) (size : Z) (prime : string)
    (w : world) :
  is_ok (sample net size prime (Some 1%Z) w).2 = false.
Proof.
  apply sample_not_ok. intros c h w1. apply predict_top_1_not_ok.
Qed.

(** With a network of a single character neither [predict] nor [sample]
    ever returns, whatever [top_k]: the one probability loses its axis in
    [squeeze] and [np.random.choice] rejects it. *)
Theorem single_character_vocabulary (net : CharRNN) (top_k : option Z) :
  length (chars net) = 1 →
  (∀ x h, length (softmax_dim1 (forward net x h).1) = length (chars net)) →
  (∀ c h w, is_ok (predict net c h top_k w).2 = false)
  ∧ (∀ size prime w, is_ok (sample net size prime top_k w).2 = false).
Proof.
  intros Hv Hlen.
  assert (Hp : ∀ c h w, is_ok (predict net c h top_k w).2 = false).
  { intros c h w. apply predict_not_drawable; [done|]. rewrite Hv.
    destruct top_k; simpl; lia. }
  split; [done|]. intros size prime w. by apply sample_not_ok.
Qed.

End sample_effects_facts.

(** ** The theorems on the three-character network *)

Section effects_examples.
Import Alphabet OneHot Sampler.

Lemma demo_scores_length x h :
  length (softmax_dim1 (forward Demo.net x h).1) = length (chars Demo.net).
Proof. reflexivity. Qed.

Lemma demo_char_z : "z"%char ∉ chars Demo.net.
Proof.
  simpl. rewrite !elem_of_cons, elem_of_nil. by intros [|[|[|]]].
Qed.

Lemma predict_Ok_witness :
  ∃ i h0,
    Some 0 = Some h0
    ∧ net_char2int Demo.net !! "a"%char = Some i
    ∧ @Build_world Demo.backend 1 1 = step_world Demo.w0
    ∧ 1 = (forward Demo.net (one_hot_input Demo.net i) h0).2
    ∧ "a"%char ∈ chars Demo.net.
Proof.
  apply (predict_Ok Demo.net "a" (Some 0) None Demo.w0).
  vm_compute. reflexivity.
Defined.

Lemma predict_unknown_character_witness :
  predict Demo.net "z" None (Some 5%Z) Demo.w0 = (Demo.w0, Raise KeyError).
Proof.
  apply (proj2 (predict_unknown_character Demo.net "z" None (Some 5%Z)
                  Demo.w0)).
  exact demo_char_z.
Defined.

Lemma predict_Raise_no_draw_witness :
  gen (count_forward Demo.w0) = gen Demo.w0
  ∧ forward_calls (count_forward Demo.w0)
    = forward_calls Demo.w0
      + (if decide ("a"%char ∈ chars Demo.net ∧ is_Some (Some 0))
         then 1 else 0).
Proof.
  apply (predict_Raise_no_draw Demo.net "a" (Some 0) (Some 4%Z) Demo.w0
           (count_forward Demo.w0) RuntimeError).
  - exact demo_scores_length.
  - exact demo_uniform_ok.
  - vm_compute. reflexivity.
Defined.

Lemma predict_returns_iff_witness :
  is_ok (predict Demo.net "a" (Some 0) (Some 2%Z) Demo.w0).2 = true
  ↔ "a"%char ∈ chars Demo.net ∧ is_Some (Some 0)
    ∧ top_k_drawable (length (chars Demo.net)) (Some 2%Z).
Proof.
  apply (predict_returns_iff Demo.net "a" (Some 0) (Some 2%Z) Demo.w0).
  - exact demo_distribution_ok.
  - exact demo_uniform_ok.
Defined.

Lemma sample_effects_witness :
  @Build_world Demo.backend 7 7
    = advance (String.length "ab" + Z.to_nat 5) Demo.w0
  ∧ forward_calls (@Build_world Demo.backend 7 7)
    = forward_calls Demo.w0 + (String.length "ab" + Z.to_nat 5)
  ∧ gen (@Build_world Demo.backend 7 7)
    = gen_after (String.length "ab" + Z.to_nat 5) (gen Demo.w0).
Proof.
  apply (sample_effects Demo.net 5 "ab" None Demo.w0 _ "abbbcabb").
  vm_compute. reflexivity.
Defined.

Lemma sample_vocabulary_witness :
  ∃ gen,
    String.list_ascii_of_string "abbbcabb"
      = String.list_ascii_of_string "ab" ++ gen
    ∧ length gen = S (Z.to_nat 5)
    ∧ Z.of_nat (String.length "abbbcabb")
      = (Z.of_nat (String.length "ab") + 1 + Z.max 0 5)%Z
    ∧ Forall (fun c => c ∈ chars Demo.net)
        (String.list_ascii_of_string "abbbcabb").
Proof.
  apply (sample_vocabulary Demo.net 5 "ab" None Demo.w0
           (@Build_world Demo.backend 7 7)).
  vm_compute. reflexivity.
Defined.

Lemma sample_unknown_prime_char_witness :
  sample Demo.net 5 "abzb" None Demo.w0
    = (advance 2 Demo.w0, Raise KeyError).
Proof.
  apply (sample_unknown_prime_char Demo.net 5 "abzb" None Demo.w0
           ["a"; "b"]%char "z"%char ["b"]%char).
  - exact demo_distribution_ok.
  - exact demo_uniform_ok.
  - simpl. lia.
  - reflexivity.
  - simpl. repeat constructor.
  - exact demo_char_z.
Defined.

Lemma sample_returns_iff_witness :
  is_ok (sample Demo.net 5 "ab" (Some 2%Z) Demo.w0).2 = true
  ↔ "ab"%string ≠ ""%string
    ∧ Forall (fun c => c ∈ chars Demo.net) (String.list_ascii_of_string "ab")
    ∧ top_k_drawable (length (chars Demo.net)) (Some 2%Z).
Proof.
  apply (sample_returns_iff Demo.net 5 "ab" (Some 2%Z) Demo.w0).
  - exact demo_distribution_ok.
  - exact demo_uniform_ok.
Defined.

Lemma sample_prefix_extension_witness :
  ∃ w1 s1,
    sample Demo.net 2 "ab" None Demo.w0 = (w1, Ok s1)
    ∧ String.list_ascii_of_string s1
      `prefix_of` String.list_ascii_of_string "abbbcabb"
    ∧ @Build_world Demo.backend 7 7
      = advance (Z.to_nat 5 - Z.to_nat 2) w1.
Proof.
  apply (sample_prefix_extension Demo.net 2 5 "ab" None Demo.w0).
  - lia.
  - vm_compute. reflexivity.
Defined.

Lemma single_character_vocabulary_witness :
  (∀ c h w, is_ok (predict Demo.single c h None w).2 = false)
  ∧ (∀ size prime w, is_ok (sample Demo.single size prime None w).2 = false).
Proof.
  apply (single_character_vocabulary Demo.single None).
  - reflexivity.
  - reflexivity.
Defined.

End effects_examples.
